(** * The reachability engine of [reachability.hpp] and the river-crossing
      model of [family.cpp]

    A shallow embedding of [state_space_t] (its two solvers and [check]) and
    of the family river-crossing model that drives it, followed by the
    properties of the search that the design document states.

    Conventions of the embedding.
    - A transition, a [std::function<void(StateT&)>] that is always applied
      to a fresh copy of the current state, is a function [StateT -> StateT].
    - [operator==] on [StateT] and [operator<] on [CostT], which the
      templates require of their arguments, are the classes [Equal] and
      [Less].
    - A [trace_state] is never written after [make_shared] built it, so the
      shared pointers of the unordered solver are the nodes themselves.  The
      cost-ordered solver stores [std::pair<CostT, std::shared_ptr<...>>] in a
      [std::priority_queue] with the default comparison, which compares the
      pointers when neither cost is less than the other; there a queue entry
      also carries the address of its node, and the address [make_shared]
      gives to the k-th node of a run is the parameter [address_of].
    - Both solvers loop [while (!waiting.empty())] and need not terminate;
      [iterate] runs at most a given number of iterations of the loop body
      and a solver returns [None] when the frontier is not yet empty then. *)

From Stdlib Require Import List ZArith Bool Arith Lia.
Import ListNotations.

Set Implicit Arguments.

(** ** reachability.hpp *)

(** [enum class search_order]. *)
Inductive search_order : Type := breadth_first | depth_first.

(** [operator==] of a state type. *)
Class Equal (T : Type) : Type := equal : T -> T -> bool.

(** [operator<] of a cost type. *)
Class Less (T : Type) : Type := less : T -> T -> bool.

(** What one iteration of a solver loop did: the frontier entry it popped and
    whether it called the transition generator on the popped state. *)
Record iteration (X : Type) : Type := mk_iteration {
  popped : X;
  expanded : bool
}.

(** At most [n] iterations of a loop whose body is [body] ([None] when the
    loop condition fails), with the iterations performed. *)
Fixpoint iterate {V X : Type} (body : V -> option (iteration X * V))
    (n : nat) (v : V) : list (iteration X) * V :=
  match n with
  | O => ([], v)
  | S k =>
      match body v with
      | None => ([], v)
      | Some (i, v') => let (l, v'') := iterate body k v' in (i :: l, v'')
      end
  end.

Section Reachability.

Context {StateT CostT : Type}.
Context {state_equal : Equal StateT} {cost_less : Less CostT}.

(** [struct trace_state]: a node of the trace forest. *)
#[local] Unset Elimination Schemes.
Inductive trace_state : Type := mk_trace {
  parent : option trace_state;
  self : StateT
}.
#[local] Set Elimination Schemes.

(** The private fields of [class state_space_t].  The constructor without
    cost leaves [_costFunction] empty and [_initialCost] default; neither is
    read when [_useCost] is false. *)
Record state_space_t : Type := mk_state_space {
  _initialState : StateT;
  _initialCost : CostT;
  _transitionFunction : StateT -> list (StateT -> StateT);
  _invariantFunction : StateT -> bool;
  _useCost : bool;
  _costFunction : StateT -> CostT -> CostT
}.

(** [find(passed.begin(), passed.end(), currentState) != passed.end()]. *)
Definition find (passed : list StateT) (currentState : StateT) : bool :=
  existsb (fun p => equal p currentState) passed.

(** [while (traceState->parent != nullptr) { traces.push_front(traceState->self);
    traceState = traceState->parent; }]: the node the walk stops at and the
    list it leaves. *)
Fixpoint walk_parents (traceState : trace_state) (traces : list StateT)
    : trace_state * list StateT :=
  match traceState with
  | mk_trace (Some p) s => walk_parents p (s :: traces)
  | mk_trace None _ => (traceState, traces)
  end.

(** *** solver *)

(** The locals of [solver] that live across iterations ([currentState] and
    [traceState] are assigned afresh at the top of each one). *)
Record solver_vars : Type := mk_solver_vars {
  passed : list StateT;
  waiting : list trace_state;
  traces : list StateT;
  containedSolution : list StateT;
  result : list (list StateT)
}.

(** [front]/[pop_front] or [back]/[pop_back], by the search order.  The
    third branch of the source, which pops nothing, is for a value that the
    enumeration does not have. *)
Definition take (order : search_order) (waiting : list trace_state)
    : option (trace_state * list trace_state) :=
  match order with
  | breadth_first =>
      match waiting with
      | [] => None
      | front :: rest => Some (front, rest)
      end
  | depth_first =>
      match rev waiting with
      | [] => None
      | back :: rest => Some (back, rev rest)
      end
  end.

(** The [for (auto transition: transitions)] loop of [solver]. *)
Definition push_successors (ss : state_space_t) (currentState : StateT)
    (traceState : trace_state) (transitions : list (StateT -> StateT))
    (waiting : list trace_state) : list trace_state :=
  fold_left
    (fun waiting transition =>
       let successor := transition currentState in
       if _invariantFunction ss successor
       then waiting ++ [mk_trace (Some traceState) successor]
       else waiting)
    transitions waiting.

(** One iteration of the [while (!waiting.empty())] loop of [solver]. *)
Definition solver_body (ss : state_space_t) (isGoalState : StateT -> bool)
    (order : search_order) (v : solver_vars)
    : option (iteration trace_state * solver_vars) :=
  match take order (waiting v) with
  | None => None
  | Some (node, waiting1) =>
      let currentState := self node in
      let traceState := node in
      let '(traceState, traces1, containedSolution1, result1) :=
        if isGoalState currentState then
          let '(traceState, traces1) := walk_parents traceState (traces v) in
          let traces1 := self traceState :: traces1 in
          let containedSolution1 := containedSolution v ++ traces1 in
          (traceState, traces1, containedSolution1,
           result v ++ [containedSolution1])
        else (traceState, traces v, containedSolution v, result v) in
      if negb (find (passed v) currentState) then
        let passed1 := passed v ++ [currentState] in
        let transitions := _transitionFunction ss currentState in
        Some (mk_iteration node true,
              {| passed := passed1;
                 waiting := push_successors ss currentState traceState
                              transitions waiting1;
                 traces := traces1;
                 containedSolution := containedSolution1;
                 result := result1 |})
      else
        Some (mk_iteration node false,
              {| passed := passed v;
                 waiting := waiting1;
                 traces := traces1;
                 containedSolution := containedSolution1;
                 result := result1 |})
  end.

(** The locals of [solver] when the loop is entered. *)
Definition solver_init (ss : state_space_t) : solver_vars :=
  {| passed := [];
     waiting := [mk_trace None (_initialState ss)];
     traces := [];
     containedSolution := [];
     result := [] |}.

Definition solver_run (ss : state_space_t) (isGoalState : StateT -> bool)
    (order : search_order) (n : nat) : list (iteration trace_state) * solver_vars :=
  iterate (solver_body ss isGoalState order) n (solver_init ss).

(** [state_space_t::solver]: the result when the frontier is empty after at
    most [fuel] iterations. *)
Definition solver (ss : state_space_t) (isGoalState : StateT -> bool)
    (order : search_order) (fuel : nat) : option (list (list StateT)) :=
  let v := snd (solver_run ss isGoalState order fuel) in
  match waiting v with
  | [] => Some (result v)
  | _ :: _ => None
  end.

(** *** costSolver *)

(** An element of the priority queue: [first] the cost, [second] the shared
    pointer, which is the address it holds and the node at that address. *)
Record queued : Type := mk_queued {
  first : CostT;
  address : Z;
  second : trace_state
}.

(** [operator<] of [std::pair<CostT, std::shared_ptr<...>>]. *)
Definition pair_less (a b : queued) : bool :=
  less (first a) (first b)
  || (negb (less (first b) (first a)) && (address a <? address b)%Z).

(** [top] and [pop] of the priority queue, whose content is kept as a list:
    a greatest element under [pair_less] and the elements left.  The nodes
    of the queue are alive together and so at different addresses; under a
    strict weak ordering of the costs no two entries are then equivalent
    and the greatest one is unique. *)
Fixpoint pop_top (waiting : list queued) : option (queued * list queued) :=
  match waiting with
  | [] => None
  | x :: rest =>
      match pop_top rest with
      | None => Some (x, [])
      | Some (m, others) =>
          if pair_less m x then Some (x, m :: others) else Some (m, x :: others)
      end
  end.

(** The address [make_shared] returns for the k-th node allocated in a run. *)
Variable address_of : nat -> Z.

Record cost_vars : Type := mk_cost_vars {
  cpassed : list StateT;
  cwaiting : list queued;
  solution : list StateT;
  ccontainedSolution : list StateT;
  cresult : list (list StateT);
  allocated : nat
}.

(** The [for (auto transition: transitions)] loop of [costSolver]. *)
Definition push_cost_successors (ss : state_space_t) (currentState : StateT)
    (currentCost : CostT) (traceState : trace_state)
    (transitions : list (StateT -> StateT)) (waiting : list queued)
    (allocated : nat) : list queued * nat :=
  fold_left
    (fun '(waiting, allocated) transition =>
       let successor := transition currentState in
       if negb (_invariantFunction ss successor) then (waiting, allocated)
       else
         let newCost := _costFunction ss successor currentCost in
         (waiting ++ [mk_queued newCost (address_of allocated)
                        (mk_trace (Some traceState) successor)],
          S allocated))
    transitions (waiting, allocated).

(** One iteration of the [while (!waiting.empty())] loop of [costSolver]. *)
Definition cost_body (ss : state_space_t) (isGoalState : StateT -> bool)
    (v : cost_vars) : option (iteration queued * cost_vars) :=
  match pop_top (cwaiting v) with
  | None => None
  | Some (top, waiting1) =>
      let currentState := self (second top) in
      let currentCost := first top in
      let traceState := second top in
      let '(traceState, solution1, containedSolution1, result1) :=
        if isGoalState currentState then
          let '(traceState, solution1) := walk_parents traceState (solution v) in
          let solution1 := self traceState :: solution1 in
          let containedSolution1 := ccontainedSolution v ++ solution1 in
          (traceState, solution1, containedSolution1,
           cresult v ++ [containedSolution1])
        else (traceState, solution v, ccontainedSolution v, cresult v) in
      if negb (find (cpassed v) currentState) then
        let passed1 := cpassed v ++ [currentState] in
        let transitions := _transitionFunction ss currentState in
        let '(waiting2, allocated2) :=
          push_cost_successors ss currentState currentCost traceState
            transitions waiting1 (allocated v) in
        Some (mk_iteration top true,
              {| cpassed := passed1;
                 cwaiting := waiting2;
                 solution := solution1;
                 ccontainedSolution := containedSolution1;
                 cresult := result1;
                 allocated := allocated2 |})
      else
        Some (mk_iteration top false,
              {| cpassed := cpassed v;
                 cwaiting := waiting1;
                 solution := solution1;
                 ccontainedSolution := containedSolution1;
                 cresult := result1;
                 allocated := allocated v |})
  end.

(** The locals of [costSolver] when the loop is entered. *)
Definition cost_init (ss : state_space_t) : cost_vars :=
  {| cpassed := [];
     cwaiting := [mk_queued (_initialCost ss) (address_of 0)
                    (mk_trace None (_initialState ss))];
     solution := [];
     ccontainedSolution := [];
     cresult := [];
     allocated := 1 |}.

Definition cost_run (ss : state_space_t) (isGoalState : StateT -> bool)
    (n : nat) : list (iteration queued) * cost_vars :=
  iterate (cost_body ss isGoalState) n (cost_init ss).

(** [state_space_t::costSolver]. *)
Definition costSolver (ss : state_space_t) (isGoalState : StateT -> bool)
    (fuel : nat) : option (list (list StateT)) :=
  let v := snd (cost_run ss isGoalState fuel) in
  match cwaiting v with
  | [] => Some (cresult v)
  | _ :: _ => None
  end.

(** [state_space_t::check]. *)
Definition check (ss : state_space_t) (isGoalState : StateT -> bool)
    (order : search_order) (fuel : nat) : option (list (list StateT)) :=
  if _useCost ss then costSolver ss isGoalState fuel
  else solver ss isGoalState order fuel.

End Reachability.

Arguments trace_state : clear implicits.
Arguments state_space_t : clear implicits.
Arguments solver_vars : clear implicits.
Arguments queued : clear implicits.
Arguments cost_vars : clear implicits.

(** ** family.cpp *)

(** [struct person_t]. *)
Module person_t.
Inductive pos_t : Type := shore1 | onboard | shore2.
Record t : Type := mk { pos : pos_t }.

Definition mother : nat := 0.
Definition father : nat := 1.
Definition daughter1 : nat := 2.
Definition daughter2 : nat := 3.
Definition son1 : nat := 4.
Definition son2 : nat := 5.
Definition policeman : nat := 6.
Definition prisoner : nat := 7.

Definition pos_eqb (a b : pos_t) : bool :=
  match a, b with
  | shore1, shore1 | onboard, onboard | shore2, shore2 => true
  | _, _ => false
  end.

(** [operator==(const person_t&, const person_t&)]. *)
Definition eqb (p1 p2 : t) : bool := pos_eqb (pos p1) (pos p2).
End person_t.

(** [struct boat_t]; [capacity] and [passengers] are [uint16_t]. *)
Module boat_t.
Inductive pos_t : Type := shore1 | travel | shore2.
Record t : Type := mk { pos : pos_t; capacity : Z; passengers : Z }.

Definition pos_eqb (a b : pos_t) : bool :=
  match a, b with
  | shore1, shore1 | travel, travel | shore2, shore2 => true
  | _, _ => false
  end.

(** [operator==(const boat_t&, const boat_t&)]. *)
Definition eqb (b1 b2 : t) : bool :=
  pos_eqb (pos b1) (pos b2)
  && (passengers b1 =? passengers b2)%Z
  && (capacity b1 =? capacity b2)%Z.
End boat_t.

(** Arithmetic of [uint16_t] and of [size_t]. *)
Definition uint16 (z : Z) : Z := (z mod 65536)%Z.
Definition size_t (z : Z) : Z := (z mod 18446744073709551616)%Z.

(** [struct state_t]; [persons] is a [std::array<person_t, 8>]. *)
Record state_t : Type := mk_state {
  boat : boat_t.t;
  persons : list person_t.t
}.

(** [state_t{}]. *)
Definition initial_state : state_t :=
  {| boat := boat_t.mk boat_t.shore1 2 0;
     persons := repeat (person_t.mk person_t.shore1) 8 |}.

(** [s.persons[i].pos]. *)
Definition person_pos (s : state_t) (i : nat) : person_t.pos_t :=
  person_t.pos (nth i (persons s) (person_t.mk person_t.shore1)).

(** [persons[i].pos = p]. *)
Fixpoint set_person (i : nat) (p : person_t.pos_t) (ps : list person_t.t)
    : list person_t.t :=
  match ps, i with
  | [], _ => []
  | _ :: rest, O => person_t.mk p :: rest
  | x :: rest, S j => x :: set_person j p rest
  end.

Fixpoint persons_eqb (a b : list person_t.t) : bool :=
  match a, b with
  | [], [] => true
  | x :: a', y :: b' => person_t.eqb x y && persons_eqb a' b'
  | _, _ => false
  end.

(** [operator==(const state_t&, const state_t&)]. *)
Definition state_eqb (state1 state2 : state_t) : bool :=
  boat_t.eqb (boat state1) (boat state2)
  && persons_eqb (persons state1) (persons state2).

#[export] Instance state_t_equal : Equal state_t := state_eqb.

(** The closures that [transitions] returns. *)
Definition start_travel (state : state_t) : state_t :=
  {| boat := boat_t.mk boat_t.travel (boat_t.capacity (boat state))
               (boat_t.passengers (boat state));
     persons := persons state |}.

Definition arrive (to : boat_t.pos_t) (shore : person_t.pos_t)
    (state : state_t) : state_t :=
  {| boat := boat_t.mk to (boat_t.capacity (boat state)) 0;
     persons :=
       map (fun p => if person_t.pos_eqb (person_t.pos p) person_t.onboard
                     then person_t.mk shore else p)
           (persons state) |}.

Definition arrive_shore1 : state_t -> state_t :=
  arrive boat_t.shore1 person_t.shore1.

Definition arrive_shore2 : state_t -> state_t :=
  arrive boat_t.shore2 person_t.shore2.

Definition board (i : nat) (state : state_t) : state_t :=
  {| boat := boat_t.mk (boat_t.pos (boat state)) (boat_t.capacity (boat state))
               (uint16 (boat_t.passengers (boat state) + 1));
     persons := set_person i person_t.onboard (persons state) |}.

Definition leave (shore : person_t.pos_t) (i : nat) (state : state_t) : state_t :=
  {| boat := boat_t.mk (boat_t.pos (boat state)) (boat_t.capacity (boat state))
               (uint16 (boat_t.passengers (boat state) - 1));
     persons := set_person i shore (persons state) |}.

(** [transitions]: the boat's moves, then for each of the eight persons in
    turn the move that person has, if any. *)
Definition transitions (s : state_t) : list (state_t -> state_t) :=
  (match boat_t.pos (boat s) with
   | boat_t.shore1 | boat_t.shore2 =>
       if (boat_t.passengers (boat s) >? 0)%Z then [start_travel] else []
   | boat_t.travel => [arrive_shore1; arrive_shore2]
   end)
  ++ flat_map
       (fun i =>
          match person_pos s i with
          | person_t.shore1 =>
              if boat_t.pos_eqb (boat_t.pos (boat s)) boat_t.shore1
              then [board i] else []
          | person_t.shore2 =>
              if boat_t.pos_eqb (boat_t.pos (boat s)) boat_t.shore2
              then [board i] else []
          | person_t.onboard =>
              if boat_t.pos_eqb (boat_t.pos (boat s)) boat_t.shore1
              then [leave person_t.shore1 i]
              else if boat_t.pos_eqb (boat_t.pos (boat s)) boat_t.shore2
              then [leave person_t.shore2 i] else []
          end)
       (seq 0 8).

(** [river_crossing_valid], without the lines it logs. *)
Definition river_crossing_valid (s : state_t) : bool :=
  let at_ i p := person_t.pos_eqb (person_pos s i) p in
  let same i j := person_t.pos_eqb (person_pos s i) (person_pos s j) in
  let onb i := at_ i person_t.onboard in
  let passengers := boat_t.passengers (boat s) in
  if (passengers >? boat_t.capacity (boat s))%Z then false
  else
    let travelling :=
      if boat_t.pos_eqb (boat_t.pos (boat s)) boat_t.travel then
        let children :=
          if onb person_t.daughter1 then
            negb ((passengers =? 1)%Z || onb person_t.daughter2
                  || onb person_t.son1 || onb person_t.son2
                  || onb person_t.prisoner)
          else if onb person_t.daughter2 then
            negb ((passengers =? 1)%Z || onb person_t.daughter1
                  || onb person_t.son1 || onb person_t.son2
                  || onb person_t.prisoner)
          else if onb person_t.son1 then
            negb ((passengers =? 1)%Z || onb person_t.daughter1
                  || onb person_t.daughter2 || onb person_t.son2
                  || onb person_t.prisoner)
          else if onb person_t.son2 then
            negb ((passengers =? 1)%Z || onb person_t.daughter1
                  || onb person_t.daughter2 || onb person_t.son1
                  || onb person_t.prisoner)
          else true in
        if negb children then false
        else if negb (same person_t.prisoner person_t.policeman)
                && (same person_t.daughter1 person_t.prisoner
                    || same person_t.daughter2 person_t.prisoner
                    || same person_t.son1 person_t.prisoner
                    || same person_t.son2 person_t.prisoner
                    || same person_t.mother person_t.prisoner
                    || same person_t.father person_t.prisoner)
        then false
        else if onb person_t.prisoner && (passengers <? 2)%Z then false
        else true
      else true in
    if negb travelling then false
    else if same person_t.daughter1 person_t.father
            && negb (same person_t.daughter1 person_t.mother) then false
    else if same person_t.daughter2 person_t.father
            && negb (same person_t.daughter2 person_t.mother) then false
    else if same person_t.son1 person_t.mother
            && negb (same person_t.son1 person_t.father) then false
    else if same person_t.son2 person_t.mother
            && negb (same person_t.son2 person_t.father) then false
    else true.

(** [struct cost_t] and its member [operator<], which orders a greater depth
    (then a greater noise) below a smaller one. *)
Record cost_t : Type := mk_cost { depth : Z; noise : Z }.

Definition cost_lt (a other : cost_t) : bool :=
  if (depth a >? depth other)%Z then true
  else if (depth other >? depth a)%Z then false
  else (noise a >? noise other)%Z.

#[export] Instance cost_t_less : Less cost_t := cost_lt.

(** [goal]. *)
Definition goal (s : state_t) : bool :=
  forallb (fun p => person_t.pos_eqb (person_t.pos p) person_t.shore2)
          (persons s).

(** The state space that [solve] builds from its cost function. *)
Definition family_space (cost : state_t -> cost_t -> cost_t)
    : state_space_t state_t cost_t :=
  {| _initialState := initial_state;
     _initialCost := mk_cost 0 0;
     _transitionFunction := transitions;
     _invariantFunction := river_crossing_valid;
     _useCost := true;
     _costFunction := cost |}.

(** [solve]: the solutions it goes on to print. *)
Definition solve (address_of : nat -> Z) (cost : state_t -> cost_t -> cost_t)
    (fuel : nat) : option (list (list state_t)) :=
  check address_of (family_space cost) goal breadth_first fuel.

(** The first cost function of [main]: the depth of the search. *)
Definition depth_cost (state : state_t) (prev_cost : cost_t) : cost_t :=
  mk_cost (size_t (depth prev_cost + 1)) (noise prev_cost).

(** ** Notions the properties are stated with *)

Section Observations.

Context {StateT CostT : Type}.
Context {state_equal : Equal StateT} {cost_less : Less CostT}.

(** The states from the root down to a node, which is what the walk over the
    parent pointers followed by the [push_front] of the root's state puts in
    front of the list. *)
Fixpoint chain (n : trace_state StateT) : list StateT :=
  match n with
  | mk_trace (Some p) s => chain p ++ [s]
  | mk_trace None s => [s]
  end.

(** The states the transition generator was called on, in order. *)
Definition expansions {X : Type} (state_of : X -> StateT)
    (log : list (iteration X)) : list StateT :=
  map (fun i => state_of (popped i)) (filter (@expanded X) log).

(** The iterations that popped a state satisfying the goal predicate. *)
Definition goal_pops {X : Type} (isGoalState : StateT -> bool)
    (state_of : X -> StateT) (log : list (iteration X)) : list (iteration X) :=
  filter (fun i => isGoalState (state_of (popped i))) log.

(** No element of the list is [==] to a later one. *)
Definition distinct_states (l : list StateT) : Prop :=
  ForallOrdPairs (fun a b => equal a b = false) l.

(** [b] is reached from [a] by one transition that the generator yields at
    [a] and whose result the invariant accepts. *)
Definition is_step (ss : state_space_t StateT CostT) (a b : StateT) : bool :=
  existsb (fun transition => equal (transition a) b)
          (_transitionFunction ss a)
  && _invariantFunction ss b.

Fixpoint steps_from (ss : state_space_t StateT CostT) (a : StateT)
    (p : list StateT) : bool :=
  match p with
  | [] => true
  | b :: rest => is_step ss a b && steps_from ss b rest
  end.

(** A state sequence from the initial state to a goal state whose consecutive
    states are each one step apart. *)
Definition is_path (ss : state_space_t StateT CostT)
    (isGoalState : StateT -> bool) (p : list StateT) : bool :=
  match p with
  | [] => false
  | a :: rest =>
      equal a (_initialState ss) && steps_from ss a rest
      && isGoalState (last p a)
  end.

(** A strict weak ordering, as [std::priority_queue] requires of the
    comparison. *)
Record strict_weak_order : Prop := {
  less_irrefl : forall a : CostT, less a a = false;
  less_trans : forall a b c : CostT,
      less a b = true -> less b c = true -> less a c = true;
  equiv_trans : forall a b c : CostT,
      less a b = false -> less b a = false ->
      less b c = false -> less c b = false ->
      less a c = false /\ less c a = false
}.

(** Two state spaces that a search cannot tell apart: the generators yield
    the same candidate successors in the same order, and the predicates and
    cost functions take the same values. *)
Record same_behaviour (ss1 ss2 : state_space_t StateT CostT) : Prop := {
  same_initialState : _initialState ss1 = _initialState ss2;
  same_initialCost : _initialCost ss1 = _initialCost ss2;
  same_useCost : _useCost ss1 = _useCost ss2;
  same_successors : forall s,
      map (fun t => t s) (_transitionFunction ss1 s)
      = map (fun t => t s) (_transitionFunction ss2 s);
  same_invariant : forall s,
      _invariantFunction ss1 s = _invariantFunction ss2 s;
  same_cost : forall s c, _costFunction ss1 s c = _costFunction ss2 s c
}.

End Observations.

(** ** Small state spaces

    The state and the cost are each a struct of one unsigned counter, with
    [==] and [<] those of the counter; the counter stands for the struct. *)

Module Examples.

#[export] Instance nat_equal : Equal nat := Nat.eqb.
#[export] Instance nat_less : Less nat := Nat.ltb.

(** 0 -> 1 -> 2, every state valid. *)
Definition line : state_space_t nat nat :=
  {| _initialState := 0;
     _initialCost := 0;
     _transitionFunction := fun n => if n <? 2 then [S] else [];
     _invariantFunction := fun _ => true;
     _useCost := false;
     _costFunction := fun _ c => c |}.

Definition line_cost : state_space_t nat nat :=
  {| _initialState := 0;
     _initialCost := 0;
     _transitionFunction := fun n => if n <? 2 then [S] else [];
     _invariantFunction := fun _ => true;
     _useCost := true;
     _costFunction := fun _ c => S c |}.

Definition positive (n : nat) : bool := 1 <=? n.

(** A single state that the invariant rejects, with no transition. *)
Definition rejected_start (useCost : bool) : state_space_t nat nat :=
  {| _initialState := 0;
     _initialCost := 0;
     _transitionFunction := fun _ => [];
     _invariantFunction := fun _ => false;
     _useCost := useCost;
     _costFunction := fun _ c => c |}.

Definition anything (n : nat) : bool := true.

(** 0 <-> 1, where the invariant rejects 0. *)
Definition there_and_back (useCost : bool) : state_space_t nat nat :=
  {| _initialState := 0;
     _initialCost := 0;
     _transitionFunction := fun _ => [fun s => 1 - s];
     _invariantFunction := fun s => negb (s =? 0);
     _useCost := useCost;
     _costFunction := fun _ c => S c |}.

(** 0 -> 1 -> 2 -> ..., where the invariant rejects 2 and beyond. *)
Definition short_line (useCost : bool) : state_space_t nat nat :=
  {| _initialState := 0;
     _initialCost := 0;
     _transitionFunction := fun _ => [S];
     _invariantFunction := fun s => s <? 2;
     _useCost := useCost;
     _costFunction := fun _ c => S c |}.

(** 0 -> 1 and 0 -> 2; the cost of a state is the state. *)
Definition fork : state_space_t nat nat :=
  {| _initialState := 0;
     _initialCost := 0;
     _transitionFunction :=
       fun n => if n =? 0 then [fun _ => 1; fun _ => 2] else [];
     _invariantFunction := fun _ => true;
     _useCost := true;
     _costFunction := fun s _ => s |}.

(** The same fork with every cost equal. *)
Definition level_fork : state_space_t nat nat :=
  {| _initialState := 0;
     _initialCost := 0;
     _transitionFunction :=
       fun n => if n =? 0 then [fun _ => 1; fun _ => 2] else [];
     _invariantFunction := fun _ => true;
     _useCost := true;
     _costFunction := fun _ c => c |}.

(** 0 -> 1 -> 2 -> ..., where the invariant rejects every state. *)
Definition dead_end (useCost : bool) : state_space_t nat nat :=
  {| _initialState := 0;
     _initialCost := 0;
     _transitionFunction := fun _ => [S];
     _invariantFunction := fun _ => false;
     _useCost := useCost;
     _costFunction := fun _ c => c |}.

(** 0 -> 1 -> 2 -> ..., where the invariant accepts 0 alone. *)
Definition lone_start (useCost : bool) : state_space_t nat nat :=
  {| _initialState := 0;
     _initialCost := 0;
     _transitionFunction := fun _ => [S];
     _invariantFunction := fun s => s =? 0;
     _useCost := useCost;
     _costFunction := fun _ c => c |}.

(** Addresses that grow, and addresses that shrink, with the allocations. *)
Definition ascending (k : nat) : Z := Z.of_nat k.
Definition descending (k : nat) : Z := (- Z.of_nat k)%Z.

(** Addresses that grow by the size of a node, from another base. *)
Definition spaced (k : nat) : Z := (4096 + 48 * Z.of_nat k)%Z.

End Examples.

Import Examples.

(** ** The statements that are tested on the small state spaces *)

Section Statements.

Context {StateT CostT : Type}.
Context {state_equal : Equal StateT} {cost_less : Less CostT}.
Variable address_of : nat -> Z.
Variable ss : state_space_t StateT CostT.
Variable isGoalState : StateT -> bool.

(** No frontier entry has a cost less than that of the entry popped next. *)
Definition pops_least_cost : Prop :=
  forall n i v',
    cost_body address_of ss isGoalState
      (snd (cost_run address_of ss isGoalState n)) = Some (i, v') ->
    forall x, In x (cwaiting (snd (cost_run address_of ss isGoalState n))) ->
    less (first x) (first (popped i)) = false.

(** Every node of the frontier holds a state the invariant accepts. *)
Definition frontier_is_valid (order : search_order) : Prop :=
  forall n,
    Forall (fun node => _invariantFunction ss (self node) = true)
           (waiting (snd (solver_run ss isGoalState order n))).

(** A rejected initial state gives the empty result. *)
Definition rejected_start_gives_nothing (order : search_order) : Prop :=
  _invariantFunction ss (_initialState ss) = false ->
  exists fuel, check address_of ss isGoalState order fuel = Some [].

(** [s] was a candidate successor that the invariant rejected. *)
Definition rejected_candidate (log : list (iteration (trace_state StateT)))
    (s : StateT) : Prop :=
  exists i transition,
    In i log /\ expanded i = true
    /\ In transition (_transitionFunction ss (self (popped i)))
    /\ transition (self (popped i)) = s
    /\ _invariantFunction ss s = false.

(** A rejected candidate is in no path found and is never expanded. *)
Definition rejected_never_used (order : search_order) : Prop :=
  forall n s,
    rejected_candidate (fst (solver_run ss isGoalState order n)) s ->
    (forall p, In p (result (snd (solver_run ss isGoalState order n))) ->
               ~ In s p)
    /\ ~ In s (expansions (@self StateT)
                 (fst (solver_run ss isGoalState order n))).

End Statements.

(** The result of [check] is the same whatever the addresses of the nodes. *)
Definition same_result_every_run {StateT CostT : Type}
    {state_equal : Equal StateT} {cost_less : Less CostT}
    (ss : state_space_t StateT CostT) (isGoalState : StateT -> bool)
    (order : search_order) (fuel : nat) : Prop :=
  forall address_of1 address_of2 : nat -> Z,
    check address_of1 ss isGoalState order fuel
    = check address_of2 ss isGoalState order fuel.

(** ** Paths and reachability *)

Section Paths.

Context {StateT CostT : Type}.
Variable ss : state_space_t StateT CostT.

(** [b] is what a transition generated at [a] makes of [a], and the
    invariant accepts it. *)
Definition valid_step (a b : StateT) : Prop :=
  exists t, In t (_transitionFunction ss a) /\ t a = b
            /\ _invariantFunction ss b = true.

(** The states that valid steps lead to from the initial state. *)
Inductive reachable : StateT -> Prop :=
| reachable_initial : reachable (_initialState ss)
| reachable_step (a b : StateT) :
    reachable a -> valid_step a b -> reachable b.

(** Each state of [l] is a valid step from the one before, the first from
    [a]. *)
Fixpoint linked (a : StateT) (l : list StateT) : Prop :=
  match l with
  | [] => True
  | b :: rest => valid_step a b /\ linked b rest
  end.

(** A sequence of valid steps that starts at the initial state. *)
Definition genuine_path (l : list StateT) : Prop :=
  match l with
  | [] => False
  | a :: rest => a = _initialState ss /\ linked a rest
  end.

End Paths.

(** Each list of [r] is the one before it, the first [prev], with at least
    one more element at its end. *)
Fixpoint each_extends {A : Type} (prev : list A) (r : list (list A)) : Prop :=
  match r with
  | [] => True
  | q :: rest => (exists ext, ext <> [] /\ q = prev ++ ext)
                 /\ each_extends q rest
  end.

(** ** The constructors of [state_space_t] and [successors] *)

(** The default invariant, [[](const StateT &state) { return true; }]. *)
Definition accept_all {StateT : Type} (state : StateT) : bool := true.

(** The constructor without cost; the cost type is [std::nullptr_t]. *)
Definition state_space {StateT : Type} (initialState : StateT)
    (transitionFunction : StateT -> list (StateT -> StateT))
    (invariantFunction : StateT -> bool) : state_space_t StateT unit :=
  {| _initialState := initialState;
     _initialCost := tt;
     _transitionFunction := transitionFunction;
     _invariantFunction := invariantFunction;
     _useCost := false;
     _costFunction := fun _ c => c |}.

(** The constructor with cost. *)
Definition state_space_with_cost {StateT CostT : Type} (initialState : StateT)
    (initialCost : CostT)
    (transitionFunction : StateT -> list (StateT -> StateT))
    (invariantFunction : StateT -> bool)
    (costFunction : StateT -> CostT -> CostT) : state_space_t StateT CostT :=
  {| _initialState := initialState;
     _initialCost := initialCost;
     _transitionFunction := transitionFunction;
     _invariantFunction := invariantFunction;
     _useCost := true;
     _costFunction := costFunction |}.

(** [successors]: the generator it is given, as a [std::function]. *)
Definition successors {StateT : Type}
    (transitions : StateT -> list (StateT -> StateT))
    : StateT -> list (StateT -> StateT) := transitions.

(** [std::nullptr_t] values are never compared by the unordered solver. *)
#[export] Instance nullptr_less : Less unit := fun _ _ => false.

(** ** family.cpp, continued *)

(** The number of persons on board. *)
Definition onboard_count (ps : list person_t.t) : Z :=
  Z.of_nat
    (length (filter (fun p => person_t.pos_eqb (person_t.pos p)
                                person_t.onboard) ps)).

(** The second and third cost functions of [main]: the noise of the sons
    left on shore 1. *)
Definition noise_cost (w1 w2 : Z) (state : state_t) (prev_cost : cost_t)
    : cost_t :=
  let noise0 := noise prev_cost in
  let noise1 :=
    if person_t.pos_eqb (person_pos state person_t.son1) person_t.shore1
    then size_t (noise0 + w1) else noise0 in
  let noise2 :=
    if person_t.pos_eqb (person_pos state person_t.son2) person_t.shore1
    then size_t (noise1 + w2) else noise1 in
  mk_cost (depth prev_cost) noise2.

Definition noise_cost_older : state_t -> cost_t -> cost_t := noise_cost 2 1.
Definition noise_cost_younger : state_t -> cost_t -> cost_t := noise_cost 1 2.

(** The arrays of [n] persons. *)
Fixpoint all_persons (n : nat) : list (list person_t.t) :=
  match n with
  | O => [[]]
  | S k =>
      flat_map
        (fun ps => map (fun p => person_t.mk p :: ps)
                       [person_t.shore1; person_t.onboard; person_t.shore2])
        (all_persons k)
  end.

(** The states of eight persons whose boat has capacity two and as many
    passengers as persons are on board. *)
Definition all_states : list state_t :=
  flat_map
    (fun ps => map (fun b => mk_state (boat_t.mk b 2 (onboard_count ps)) ps)
                   [boat_t.shore1; boat_t.travel; boat_t.shore2])
    (all_persons 8).



(** ** crossing.cpp *)

Module crossing.

(** [enum class pos_t]; [actors_t] is a [std::array<pos_t, 3>] indexed by
    [enum actor]. *)
Inductive pos_t : Type := shore1 | travel | shore2.

Definition actors_t : Type := list pos_t.

Definition cabbage : nat := 0.
Definition goat : nat := 1.
Definition wolf : nat := 2.

Definition pos_eqb (a b : pos_t) : bool :=
  match a, b with
  | shore1, shore1 | travel, travel | shore2, shore2 => true
  | _, _ => false
  end.

(** [operator==] of [std::array]. *)
Fixpoint actors_eqb (a b : actors_t) : bool :=
  match a, b with
  | [], [] => true
  | x :: a', y :: b' => pos_eqb x y && actors_eqb a' b'
  | _, _ => false
  end.

#[global] Instance actors_equal : Equal actors_t := actors_eqb.

(** [actors[i]] and [actors[i] = p]. *)
Definition at_ (actors : actors_t) (i : nat) : pos_t := nth i actors shore1.

Fixpoint set (i : nat) (p : pos_t) (actors : actors_t) : actors_t :=
  match actors, i with
  | [], _ => []
  | _ :: rest, O => p :: rest
  | x :: rest, S j => x :: set j p rest
  end.

(** [std::count(std::begin(actors), std::end(actors), p)]. *)
Definition count (p : pos_t) (actors : actors_t) : nat :=
  length (filter (fun a => pos_eqb a p) actors).

(** [transitions]. *)
Definition transitions (actors : actors_t) : list (actors_t -> actors_t) :=
  flat_map
    (fun i =>
       match at_ actors i with
       | shore1 => [set i travel]
       | travel => [set i shore1; set i shore2]
       | shore2 => [set i travel]
       end)
    (seq 0 3).

(** [is_valid]. *)
Definition is_valid (actors : actors_t) : bool :=
  if 1 <? count travel actors then false
  else if pos_eqb (at_ actors goat) (at_ actors wolf)
          && pos_eqb (at_ actors cabbage) travel then false
  else if pos_eqb (at_ actors goat) (at_ actors cabbage)
          && pos_eqb (at_ actors wolf) travel then false
  else true.

(** The goal predicate of [solve]: all three actors on shore 2. *)
Definition all_across (actors : actors_t) : bool := count shore2 actors =? 3.

(** [actors_t{}]. *)
Definition start : actors_t := [shore1; shore1; shore1].

(** The state space that [solve] builds. *)
Definition space : state_space_t actors_t unit :=
  state_space start (successors transitions) is_valid.

(** [solve]: the traces it goes on to print.  The addresses play no part in
    the unordered solver. *)
Definition solve (fuel : nat) : option (list (list actors_t)) :=
  check (fun _ => 0%Z) space all_across breadth_first fuel.

(** The twenty-seven values of [actors_t]. *)
Definition all_actors : list actors_t :=
  flat_map (fun a => flat_map (fun b => map (fun c => [a; b; c])
                                          [shore1; travel; shore2])
                              [shore1; travel; shore2])
           [shore1; travel; shore2].

End crossing.


(** ** Two runs whose nodes lie at different addresses *)

Section TwoRuns.

Context {StateT CostT : Type}.
Variables address_of1 address_of2 : nat -> Z.

(** The same entry of the priority queue in two runs: the same cost and the
    same node, at the address that each run gives to one allocation. *)
Definition same_entry (x y : queued StateT CostT) : Prop :=
  first x = first y
  /\ second x = second y
  /\ exists k, address x = address_of1 k /\ address y = address_of2 k.

(** The locals of [costSolver] in two runs, the same up to the addresses. *)
Definition same_locals (v w : cost_vars StateT CostT) : Prop :=
  cpassed v = cpassed w
  /\ Forall2 same_entry (cwaiting v) (cwaiting w)
  /\ solution v = solution w
  /\ ccontainedSolution v = ccontainedSolution w
  /\ cresult v = cresult w
  /\ allocated v = allocated w.

End TwoRuns.
(** ** The loop combinator *)

Section Iterate.

Context {V X : Type}.
Variable body : V -> option (iteration X * V).

Lemma iterate_S (n : nat) (v : V) :
  iterate body (S n) v
  = match body v with
    | None => ([], v)
    | Some (i, v') => (i :: fst (iterate body n v'), snd (iterate body n v'))
    end.
Proof.
  simpl. destruct (body v) as [[i v']|]; [|reflexivity].
  destruct (iterate body n v'); reflexivity.
Qed.

(** A property of the variables that every iteration keeps holds after any
    number of iterations, and what every iteration then guarantees of itself
    holds of all the iterations performed. *)
Lemma iterate_invariant (P : V -> Prop) (R : iteration X -> Prop) :
  (forall v v' i, P v -> body v = Some (i, v') -> P v' /\ R i) ->
  forall n v, P v ->
    P (snd (iterate body n v)) /\ Forall R (fst (iterate body n v)).
Proof.
  intros Hstep n. induction n as [|n IH]; intros v Hv.
  - simpl. auto.
  - rewrite iterate_S. destruct (body v) as [[i v']|] eqn:Hb.
    + destruct (Hstep _ _ _ Hv Hb) as [Hv' Hi].
      destruct (IH _ Hv') as [H1 H2]. simpl. auto.
    + simpl. auto.
Qed.

(** The loop stays where it is once the body has nothing to do. *)
Lemma iterate_done (n : nat) (v : V) :
  body v = None -> iterate body n v = ([], v).
Proof. intros Hb. destruct n; simpl; [|rewrite Hb]; reflexivity. Qed.

End Iterate.

Lemma iterate_ext {V X : Type} (body1 body2 : V -> option (iteration X * V)) :
  (forall v, body1 v = body2 v) ->
  forall n v, iterate body1 n v = iterate body2 n v.
Proof.
  intros Hb n. induction n as [|n IH]; intros v; [reflexivity|].
  rewrite !iterate_S, Hb. destruct (body2 v) as [[i v']|]; [|reflexivity].
  now rewrite IH.
Qed.

(** ** Trace nodes *)

Section Traces.

Context {StateT : Type}.

Lemma trace_state_ind (P : trace_state StateT -> Prop) :
  (forall s, P (mk_trace None s)) ->
  (forall p s, P p -> P (mk_trace (Some p) s)) ->
  forall n, P n.
Proof.
  intros Hroot Hchild. fix IH 1. intros [[p|] s].
  - apply Hchild, IH.
  - apply Hroot.
Qed.

(** The walk stops at the root, whose state heads the chain of the node, and
    has put the rest of the chain in front of the list. *)
Lemma walk_parents_chain (n : trace_state StateT) :
  forall l, exists s rest,
    walk_parents n l = (mk_trace None s, rest ++ l) /\ chain n = s :: rest.
Proof.
  induction n as [s|p s IH] using trace_state_ind; intros l.
  - exists s, []. split; reflexivity.
  - destruct (IH (s :: l)) as (r & rest & Hw & Hc).
    exists r, (rest ++ [s]). simpl. rewrite Hw, Hc.
    rewrite <- app_assoc. split; reflexivity.
Qed.

Lemma chain_last (n : trace_state StateT) : In (self n) (chain n).
Proof.
  destruct n as [[p|] s]; simpl; [apply in_or_app|]; simpl; auto.
Qed.

Lemma take_some (order : search_order) (w w' : list (trace_state StateT))
    (n : trace_state StateT) :
  take order w = Some (n, w') -> In n w /\ incl w' w.
Proof.
  destruct order; simpl.
  - destruct w as [|x w0]; [discriminate|]. intros [= <- <-].
    split; [left; reflexivity | apply incl_tl, incl_refl].
  - destruct (rev w) as [|x r] eqn:Hr; [discriminate|]. intros [= <- <-].
    split.
    + apply in_rev. rewrite Hr. left; reflexivity.
    + intros y Hy. apply in_rev. rewrite Hr. right. now apply in_rev.
Qed.

Lemma take_none (order : search_order) (w : list (trace_state StateT)) :
  take order w = None <-> w = [].
Proof.
  destruct order; simpl.
  - destruct w; split; congruence.
  - destruct (rev w) as [|x r] eqn:Hr.
    + split; [|reflexivity]. intros _.
      rewrite <- (rev_involutive w), Hr. reflexivity.
    + split; [discriminate|]. intros ->. discriminate.
Qed.

End Traces.

(** ** One iteration of [solver] *)

Section SolverBody.

Context {StateT CostT : Type}.
Context {state_equal : Equal StateT} {cost_less : Less CostT}.
Variable ss : state_space_t StateT CostT.
Variable isGoalState : StateT -> bool.
Variable order : search_order.

Lemma push_successors_app (currentState : StateT)
    (traceState : trace_state StateT) (transitions : list (StateT -> StateT)) :
  forall w, exists new,
    push_successors ss currentState traceState transitions w = w ++ new
    /\ forall x, In x new ->
         exists t, In t transitions
                   /\ _invariantFunction ss (t currentState) = true
                   /\ x = mk_trace (Some traceState) (t currentState).
Proof.
  unfold push_successors.
  induction transitions as [|t ts IH]; intros w; simpl.
  - exists []. rewrite app_nil_r. split; [reflexivity | intros x []].
  - destruct (_invariantFunction ss (t currentState)) eqn:Hinv.
    + destruct (IH (w ++ [mk_trace (Some traceState) (t currentState)]))
        as (new & -> & Hnew).
      exists (mk_trace (Some traceState) (t currentState) :: new).
      rewrite <- app_assoc. split; [reflexivity|].
      intros x [<-|Hx].
      * exists t. auto.
      * destruct (Hnew x Hx) as (t' & ? & ? & ?). exists t'. auto.
    + destruct (IH w) as (new & -> & Hnew). exists new.
      split; [reflexivity|]. intros x Hx.
      destruct (Hnew x Hx) as (t' & ? & ? & ?). exists t'. auto.
Qed.

(** What an iteration that pops [popped i] leaves in the variables. *)
Lemma solver_body_some (v v' : solver_vars StateT)
    (i : iteration (trace_state StateT)) :
  solver_body ss isGoalState order v = Some (i, v') ->
  exists w1 s rest,
    take order (waiting v) = Some (popped i, w1)
    /\ chain (popped i) = s :: rest
    /\ expanded i = negb (find (passed v) (self (popped i)))
    /\ passed v'
       = (if expanded i then passed v ++ [self (popped i)] else passed v)
    /\ waiting v'
       = (if expanded i
          then push_successors ss (self (popped i))
                 (if isGoalState (self (popped i))
                  then mk_trace None s else popped i)
                 (_transitionFunction ss (self (popped i))) w1
          else w1)
    /\ traces v'
       = (if isGoalState (self (popped i))
          then chain (popped i) ++ traces v else traces v)
    /\ containedSolution v'
       = (if isGoalState (self (popped i))
          then containedSolution v ++ chain (popped i) ++ traces v
          else containedSolution v)
    /\ result v'
       = (if isGoalState (self (popped i))
          then result v ++ [containedSolution v ++ chain (popped i) ++ traces v]
          else result v).
Proof.
  unfold solver_body.
  destruct (take order (waiting v)) as [[node w1]|] eqn:Htake; [|discriminate].
  destruct (walk_parents_chain node (traces v)) as (s & rest & Hw & Hc).
  intros Hb. exists w1, s, rest.
  destruct (isGoalState (self node)) eqn:Hg;
    [rewrite Hw in Hb|];
    destruct (find (passed v) (self node)) eqn:Hf; simpl in Hb;
    injection Hb as <- <-; simpl; rewrite ?Hg, ?Hf, ?Hc; simpl;
    repeat split; reflexivity.
Qed.

Lemma solver_body_none (v : solver_vars StateT) :
  solver_body ss isGoalState order v = None <-> waiting v = [].
Proof.
  rewrite <- (take_none order). unfold solver_body.
  destruct (take order (waiting v)) as [[node w1]|]; [|tauto].
  split; [|discriminate].
  destruct (isGoalState (self node));
    [destruct (walk_parents node (traces v))|];
    destruct (find (passed v) (self node)); discriminate.
Qed.

(** *** Properties of nodes that the frontier keeps *)

Section Frontier.

Variable N : trace_state StateT -> Prop.

(** [N] passes from a popped node to the children an expansion gives it,
    whether their parent is the node or the root the walk stopped at. *)
Hypothesis N_children : forall n r t,
  N n ->
  r = n \/ (exists s rest, chain n = s :: rest /\ r = mk_trace None s) ->
  In t (_transitionFunction ss (self n)) ->
  _invariantFunction ss (t (self n)) = true ->
  N (mk_trace (Some r) (t (self n))).

Lemma solver_frontier_step (v v' : solver_vars StateT)
    (i : iteration (trace_state StateT)) :
  Forall N (waiting v) ->
  solver_body ss isGoalState order v = Some (i, v') ->
  Forall N (waiting v') /\ N (popped i).
Proof.
  intros Hw Hb.
  destruct (solver_body_some _ Hb)
    as (w1 & s & rest & Ht & Hc & _ & _ & Hw' & _).
  destruct (take_some _ _ Ht) as [Hin Hincl].
  rewrite Forall_forall in Hw.
  assert (HN : N (popped i)) by auto.
  split; [|exact HN]. rewrite Hw'. apply Forall_forall.
  destruct (expanded i); [|auto].
  match goal with
  | |- context [push_successors ss ?c ?r ?ts w1] =>
      destruct (push_successors_app c r ts w1) as (new & -> & Hnew)
  end.
  intros x Hx. apply in_app_or in Hx. destruct Hx as [Hx|Hx]; [auto|].
  destruct (Hnew x Hx) as (t & Hin' & Hinv & ->).
  apply N_children; auto.
  destruct (isGoalState (self (popped i))); [right|left]; eauto.
Qed.

End Frontier.

(** *** Properties of states that the search keeps *)

Section States.

Variable Q : StateT -> Prop.

Hypothesis Q_step : forall s t,
  Q s -> In t (_transitionFunction ss s) ->
  _invariantFunction ss (t s) = true -> Q (t s).

Lemma solver_states_step (v v' : solver_vars StateT)
    (i : iteration (trace_state StateT)) :
  (Forall (fun n => Forall Q (chain n)) (waiting v)
   /\ Forall Q (traces v) /\ Forall Q (containedSolution v)
   /\ Forall (Forall Q) (result v)) ->
  solver_body ss isGoalState order v = Some (i, v') ->
  (Forall (fun n => Forall Q (chain n)) (waiting v')
   /\ Forall Q (traces v') /\ Forall Q (containedSolution v')
   /\ Forall (Forall Q) (result v'))
  /\ Forall Q (chain (popped i)).
Proof.
  intros (Hw & Ht & Hc & Hr) Hb.
  assert (Hstep : Forall (fun n => Forall Q (chain n)) (waiting v')
                  /\ Forall Q (chain (popped i))).
  { apply (@solver_frontier_step (fun n => Forall Q (chain n)))
      with (v := v); auto.
    intros n r t Hn Hr' Hin Hinv. simpl. apply Forall_app. split.
    - destruct Hr' as [->|(s & rest & Hch & ->)]; [exact Hn|].
      rewrite Hch in Hn. simpl. constructor; [|constructor].
      now inversion Hn.
    - constructor; [|constructor]. apply Q_step; auto.
      rewrite Forall_forall in Hn. apply Hn, chain_last. }
  destruct Hstep as [Hw' Hp].
  destruct (solver_body_some _ Hb)
    as (w1 & s & rest & _ & _ & _ & _ & _ & Ht' & Hc' & Hr').
  split; [|exact Hp]. rewrite Ht', Hc', Hr'.
  assert (Hnew : Forall Q (chain (popped i) ++ traces v))
    by (apply Forall_app; auto).
  assert (Hnew' : Forall Q (containedSolution v ++ chain (popped i) ++ traces v))
    by (apply Forall_app; auto).
  destruct (isGoalState (self (popped i))); repeat split; auto.
  apply Forall_app. split; [exact Hr | constructor; [exact Hnew' | constructor]].
Qed.

Lemma solver_states (n : nat) :
  Q (_initialState ss) ->
  Forall (Forall Q) (result (snd (solver_run ss isGoalState order n)))
  /\ Forall (fun i => Forall Q (chain (popped i)))
            (fst (solver_run ss isGoalState order n)).
Proof.
  intros Hinit. unfold solver_run.
  destruct (@iterate_invariant _ _ (solver_body ss isGoalState order)
              (fun v => Forall (fun n => Forall Q (chain n)) (waiting v)
                        /\ Forall Q (traces v) /\ Forall Q (containedSolution v)
                        /\ Forall (Forall Q) (result v))
              (fun i => Forall Q (chain (popped i)))
              solver_states_step n (solver_init ss)) as [H1 H2].
  - simpl. repeat split; auto. repeat constructor. exact Hinit.
  - split; [apply H1 | exact H2].
Qed.

End States.

End SolverBody.

(** ** One iteration of [costSolver] *)

Section CostBody.

Context {StateT CostT : Type}.
Context {state_equal : Equal StateT} {cost_less : Less CostT}.
Variable address_of : nat -> Z.
Variable ss : state_space_t StateT CostT.
Variable isGoalState : StateT -> bool.

Lemma pop_top_some (w w' : list (queued StateT CostT))
    (m : queued StateT CostT) :
  pop_top w = Some (m, w') -> In m w /\ incl w' w.
Proof.
  revert m w'. induction w as [|x rest IH]; intros m w'; simpl; [discriminate|].
  destruct (pop_top rest) as [[m0 others]|].
  - destruct (IH _ _ eq_refl) as [Hin Hincl].
    destruct (pair_less m0 x); intros [= <- <-]; split; simpl; auto;
      intros y [<-|Hy]; simpl; auto; right; apply Hincl, Hy.
  - intros [= <- <-]. split; [left; reflexivity | intros y []].
Qed.

Lemma pop_top_none (w : list (queued StateT CostT)) :
  pop_top w = None <-> w = [].
Proof.
  destruct w as [|x rest]; simpl; [tauto|].
  split; [|discriminate].
  destruct (pop_top rest) as [[m others]|]; [destruct (pair_less m x)|];
    discriminate.
Qed.

Lemma push_cost_successors_app (currentState : StateT) (currentCost : CostT)
    (traceState : trace_state StateT) (transitions : list (StateT -> StateT)) :
  forall w k, exists new,
    fst (push_cost_successors address_of ss currentState currentCost
           traceState transitions w k) = w ++ new
    /\ forall x, In x new ->
         exists t, In t transitions
                   /\ _invariantFunction ss (t currentState) = true
                   /\ second x = mk_trace (Some traceState) (t currentState)
                   /\ first x = _costFunction ss (t currentState) currentCost.
Proof.
  unfold push_cost_successors.
  induction transitions as [|t ts IH]; intros w k; simpl.
  - exists []. rewrite app_nil_r. split; [reflexivity | intros x []].
  - destruct (_invariantFunction ss (t currentState)) eqn:Hinv; simpl.
    + match goal with
      | |- context [fold_left _ ts (?w1, ?k1)] =>
          destruct (IH w1 k1) as (new & -> & Hnew)
      end.
      eexists (_ :: new). rewrite <- app_assoc. split; [reflexivity|].
      intros x [<-|Hx].
      * exists t. simpl. auto.
      * destruct (Hnew x Hx) as (t' & ? & ? & ? & ?). exists t'. auto.
    + destruct (IH w k) as (new & -> & Hnew). exists new.
      split; [reflexivity|]. intros x Hx.
      destruct (Hnew x Hx) as (t' & ? & ? & ? & ?). exists t'. auto.
Qed.

(** What an iteration that pops [popped i] leaves in the variables. *)
Lemma cost_body_some (v v' : cost_vars StateT CostT)
    (i : iteration (queued StateT CostT)) :
  cost_body address_of ss isGoalState v = Some (i, v') ->
  exists w1 s rest,
    pop_top (cwaiting v) = Some (popped i, w1)
    /\ chain (second (popped i)) = s :: rest
    /\ expanded i = negb (find (cpassed v) (self (second (popped i))))
    /\ cpassed v'
       = (if expanded i then cpassed v ++ [self (second (popped i))]
          else cpassed v)
    /\ cwaiting v'
       = (if expanded i
          then fst (push_cost_successors address_of ss
                      (self (second (popped i))) (first (popped i))
                      (if isGoalState (self (second (popped i)))
                       then mk_trace None s else second (popped i))
                      (_transitionFunction ss (self (second (popped i))))
                      w1 (allocated v))
          else w1)
    /\ solution v'
       = (if isGoalState (self (second (popped i)))
          then chain (second (popped i)) ++ solution v else solution v)
    /\ ccontainedSolution v'
       = (if isGoalState (self (second (popped i)))
          then ccontainedSolution v ++ chain (second (popped i)) ++ solution v
          else ccontainedSolution v)
    /\ cresult v'
       = (if isGoalState (self (second (popped i)))
          then cresult v
               ++ [ccontainedSolution v ++ chain (second (popped i))
                   ++ solution v]
          else cresult v).
Proof.
  unfold cost_body.
  destruct (pop_top (cwaiting v)) as [[top w1]|] eqn:Hpop; [|discriminate].
  destruct (walk_parents_chain (second top) (solution v))
    as (s & rest & Hw & Hc).
  intros Hb. exists w1, s, rest.
  destruct (isGoalState (self (second top))) eqn:Hg;
    [rewrite Hw in Hb|];
    destruct (find (cpassed v) (self (second top))) eqn:Hf; simpl in Hb;
    try match type of Hb with
        | context [push_cost_successors ?a ?b ?c ?d ?e ?f ?g ?h] =>
            destruct (push_cost_successors a b c d e f g h) eqn:Hpush
        end;
    injection Hb as <- <-; simpl; rewrite ?Hg, ?Hf, ?Hc, ?Hpush; simpl;
    repeat split; reflexivity.
Qed.

Lemma cost_body_none (v : cost_vars StateT CostT) :
  cost_body address_of ss isGoalState v = None <-> cwaiting v = [].
Proof.
  rewrite <- pop_top_none. unfold cost_body.
  destruct (pop_top (cwaiting v)) as [[top w1]|]; [|tauto].
  split; [|discriminate].
  destruct (isGoalState (self (second top)));
    [destruct (walk_parents (second top) (solution v))|];
    destruct (find (cpassed v) (self (second top))); simpl;
    try match goal with
        | |- context [push_cost_successors ?a ?b ?c ?d ?e ?f ?g ?h] =>
            destruct (push_cost_successors a b c d e f g h)
        end; discriminate.
Qed.

Section Frontier.

Variable N : trace_state StateT -> Prop.

Hypothesis N_children : forall n r t,
  N n ->
  r = n \/ (exists s rest, chain n = s :: rest /\ r = mk_trace None s) ->
  In t (_transitionFunction ss (self n)) ->
  _invariantFunction ss (t (self n)) = true ->
  N (mk_trace (Some r) (t (self n))).

Lemma cost_frontier_step (v v' : cost_vars StateT CostT)
    (i : iteration (queued StateT CostT)) :
  Forall (fun x => N (second x)) (cwaiting v) ->
  cost_body address_of ss isGoalState v = Some (i, v') ->
  Forall (fun x => N (second x)) (cwaiting v') /\ N (second (popped i)).
Proof.
  intros Hw Hb.
  destruct (cost_body_some _ Hb)
    as (w1 & s & rest & Ht & Hc & _ & _ & Hw' & _).
  destruct (pop_top_some _ Ht) as [Hin Hincl].
  rewrite Forall_forall in Hw.
  assert (HN : N (second (popped i))) by auto.
  split; [|exact HN]. rewrite Hw'. apply Forall_forall.
  destruct (expanded i); [|auto].
  match goal with
  | |- context [push_cost_successors _ _ ?c ?k ?r ?ts w1 ?a] =>
      destruct (push_cost_successors_app c k r ts w1 a) as (new & -> & Hnew)
  end.
  intros x Hx. apply in_app_or in Hx. destruct Hx as [Hx|Hx]; [auto|].
  destruct (Hnew x Hx) as (t & Hin' & Hinv & -> & _).
  apply N_children; auto.
  destruct (isGoalState (self (second (popped i)))); [right|left]; eauto.
Qed.

End Frontier.

Section States.

Variable Q : StateT -> Prop.

Hypothesis Q_step : forall s t,
  Q s -> In t (_transitionFunction ss s) ->
  _invariantFunction ss (t s) = true -> Q (t s).

Lemma cost_states_step (v v' : cost_vars StateT CostT)
    (i : iteration (queued StateT CostT)) :
  (Forall (fun x => Forall Q (chain (second x))) (cwaiting v)
   /\ Forall Q (solution v) /\ Forall Q (ccontainedSolution v)
   /\ Forall (Forall Q) (cresult v)) ->
  cost_body address_of ss isGoalState v = Some (i, v') ->
  (Forall (fun x => Forall Q (chain (second x))) (cwaiting v')
   /\ Forall Q (solution v') /\ Forall Q (ccontainedSolution v')
   /\ Forall (Forall Q) (cresult v'))
  /\ Forall Q (chain (second (popped i))).
Proof.
  intros (Hw & Ht & Hc & Hr) Hb.
  assert (Hstep : Forall (fun x => Forall Q (chain (second x))) (cwaiting v')
                  /\ Forall Q (chain (second (popped i)))).
  { apply (@cost_frontier_step (fun n => Forall Q (chain n)))
      with (v := v); auto.
    intros n r t Hn Hr' Hin Hinv. simpl. apply Forall_app. split.
    - destruct Hr' as [->|(s & rest & Hch & ->)]; [exact Hn|].
      rewrite Hch in Hn. simpl. constructor; [|constructor].
      now inversion Hn.
    - constructor; [|constructor]. apply Q_step; auto.
      rewrite Forall_forall in Hn. apply Hn, chain_last. }
  destruct Hstep as [Hw' Hp].
  destruct (cost_body_some _ Hb)
    as (w1 & s & rest & _ & _ & _ & _ & _ & Ht' & Hc' & Hr').
  split; [|exact Hp]. rewrite Ht', Hc', Hr'.
  assert (Hnew : Forall Q (chain (second (popped i)) ++ solution v))
    by (apply Forall_app; auto).
  assert (Hnew' : Forall Q (ccontainedSolution v
                            ++ chain (second (popped i)) ++ solution v))
    by (apply Forall_app; auto).
  destruct (isGoalState (self (second (popped i)))); repeat split; auto.
  apply Forall_app. split; [exact Hr | constructor; [exact Hnew' | constructor]].
Qed.

Lemma cost_states (n : nat) :
  Q (_initialState ss) ->
  Forall (Forall Q) (cresult (snd (cost_run address_of ss isGoalState n)))
  /\ Forall (fun i => Forall Q (chain (second (popped i))))
            (fst (cost_run address_of ss isGoalState n)).
Proof.
  intros Hinit. unfold cost_run.
  destruct (@iterate_invariant _ _ (cost_body address_of ss isGoalState)
              (fun v => Forall (fun x => Forall Q (chain (second x)))
                               (cwaiting v)
                        /\ Forall Q (solution v)
                        /\ Forall Q (ccontainedSolution v)
                        /\ Forall (Forall Q) (cresult v))
              (fun i => Forall Q (chain (second (popped i))))
              cost_states_step n (cost_init address_of ss)) as [H1 H2].
  - simpl. repeat split; auto. repeat constructor. exact Hinit.
  - split; [apply H1 | exact H2].
Qed.

End States.

End CostBody.

(** ** Iterations and what they accumulate *)

Section Accumulate.

Context {V X A : Type}.
Variable body : V -> option (iteration X * V).

(** An iteration of the log was the body run on the variables that the
    iterations before it had left. *)
Lemma iterate_at (before after : list (iteration X)) (i : iteration X) :
  forall n v,
    fst (iterate body n v) = before ++ i :: after ->
    fst (iterate body (length before) v) = before
    /\ exists v', body (snd (iterate body (length before) v)) = Some (i, v').
Proof.
  induction before as [|j before IH]; intros n v Hlog.
  - simpl. split; [reflexivity|].
    destruct n as [|n]; [discriminate|]. rewrite iterate_S in Hlog.
    destruct (body v) as [[i0 v']|]; [|discriminate].
    simpl in Hlog. injection Hlog as -> _. eauto.
  - destruct n as [|n]; [discriminate|]. rewrite iterate_S in Hlog.
    cbn [length]. rewrite iterate_S.
    destruct (body v) as [[i0 v']|]; [|discriminate].
    simpl in Hlog. injection Hlog as -> Hlog.
    destruct (IH _ _ Hlog) as [Hfst Hbody]. simpl. rewrite Hfst. auto.
Qed.

Variable f : V -> list A.
Variable g : iteration X -> list A.

Hypothesis body_appends : forall v v' i,
  body v = Some (i, v') -> f v' = f v ++ g i.

Lemma iterate_accumulates (n : nat) :
  forall v,
    f (snd (iterate body n v)) = f v ++ flat_map g (fst (iterate body n v)).
Proof.
  induction n as [|n IH]; intros v.
  - simpl. now rewrite app_nil_r.
  - rewrite iterate_S. destruct (body v) as [[i v']|] eqn:Hb; simpl.
    + rewrite IH, (body_appends Hb), app_assoc. reflexivity.
    + now rewrite app_nil_r.
Qed.

End Accumulate.

Section Reports.

Context {V X B : Type}.
Variable body : V -> option (iteration X * V).
Variable f : V -> list B.
Variable reports : iteration X -> bool.
Variable R : iteration X -> B -> Prop.

Hypothesis body_reports : forall v v' i,
  body v = Some (i, v') ->
  if reports i then exists b, f v' = f v ++ [b] /\ R i b else f v' = f v.

(** When each reporting iteration appends one element that it is related to,
    the elements appended stand, in order, for the reporting iterations. *)
Lemma iterate_reports (n : nat) :
  forall v, exists new,
    f (snd (iterate body n v)) = f v ++ new
    /\ Forall2 R (filter reports (fst (iterate body n v))) new.
Proof.
  induction n as [|n IH]; intros v.
  - exists []. simpl. rewrite app_nil_r. split; [reflexivity | constructor].
  - rewrite iterate_S. destruct (body v) as [[i v']|] eqn:Hb; simpl.
    + destruct (IH v') as (new & Hf & Hnew). rewrite Hf.
      pose proof (body_reports Hb) as Hi.
      destruct (reports i).
      * destruct Hi as (b & -> & Hb'). exists (b :: new).
        rewrite <- app_assoc. split; [reflexivity | constructor; assumption].
      * rewrite Hi. exists new. split; [reflexivity | assumption].
    + exists []. rewrite app_nil_r. split; [reflexivity | constructor].
Qed.

End Reports.

Lemma expansions_flat_map {StateT X : Type} (state_of : X -> StateT)
    (log : list (iteration X)) :
  expansions state_of log
  = flat_map (fun i => if expanded i then [state_of (popped i)] else []) log.
Proof.
  unfold expansions. induction log as [|i log IH]; [reflexivity|].
  simpl. destruct (expanded i); simpl; now rewrite IH.
Qed.

Lemma distinct_states_snoc {StateT : Type} {state_equal : Equal StateT}
    (l : list StateT) (x : StateT) :
  distinct_states l -> find l x = false -> distinct_states (l ++ [x]).
Proof.
  unfold distinct_states, find. induction l as [|a l IH]; intros Hd Hf; simpl.
  - repeat constructor.
  - simpl in Hf. apply orb_false_elim in Hf. destruct Hf as [Ha Hf].
    inversion Hd as [|? ? Hal Hl]; subst. constructor.
    + apply Forall_app. split; [exact Hal | repeat constructor; exact Ha].
    + apply IH; assumption.
Qed.

(** ** The order in which [costSolver] pops *)

Section CostOrder.

Context {StateT CostT : Type}.
Context {state_equal : Equal StateT} {cost_less : Less CostT}.
Hypothesis cost_order : strict_weak_order (CostT := CostT).

Lemma less_equiv_r (a b c : CostT) :
  less a b = true -> less b c = false -> less c b = false -> less a c = true.
Proof.
  intros Hab Hbc Hcb. destruct (less a c) eqn:Hac; [reflexivity|].
  destruct (less c a) eqn:Hca.
  - rewrite (less_trans cost_order _ _ _ Hca Hab) in Hcb. discriminate.
  - destruct (equiv_trans cost_order a c b Hac Hca Hcb Hbc) as [H _].
    congruence.
Qed.

Lemma less_equiv_l (a b c : CostT) :
  less a b = false -> less b a = false -> less b c = true -> less a c = true.
Proof.
  intros Hab Hba Hbc. destruct (less a c) eqn:Hac; [reflexivity|].
  destruct (less c a) eqn:Hca.
  - rewrite (less_trans cost_order _ _ _ Hbc Hca) in Hba. discriminate.
  - destruct (equiv_trans cost_order b a c Hba Hab Hac Hca) as [H _].
    congruence.
Qed.

Lemma pair_less_irrefl (a : queued StateT CostT) : pair_less a a = false.
Proof.
  unfold pair_less. rewrite (less_irrefl cost_order), Z.ltb_irrefl.
  reflexivity.
Qed.

Lemma pair_less_trans (a b c : queued StateT CostT) :
  pair_less a b = true -> pair_less b c = true -> pair_less a c = true.
Proof.
  unfold pair_less. intros Hab Hbc.
  destruct (less (first a) (first b)) eqn:Lab;
    destruct (less (first b) (first c)) eqn:Lbc; simpl in *.
  - now rewrite (less_trans cost_order _ _ _ Lab Lbc).
  - apply andb_prop in Hbc. destruct Hbc as [Lcb _].
    apply negb_true_iff in Lcb.
    now rewrite (less_equiv_r Lab Lbc Lcb).
  - apply andb_prop in Hab. destruct Hab as [Lba _].
    apply negb_true_iff in Lba.
    now rewrite (less_equiv_l Lab Lba Lbc).
  - apply andb_prop in Hab. destruct Hab as [Lba Aab].
    apply andb_prop in Hbc. destruct Hbc as [Lcb Abc].
    apply negb_true_iff in Lba, Lcb.
    destruct (equiv_trans cost_order _ _ _ Lab Lba Lbc Lcb) as [-> ->].
    simpl. apply Z.ltb_lt. apply Z.ltb_lt in Aab, Abc. lia.
Qed.

(** The popped element is a greatest one of the queue. *)
Lemma pop_top_greatest (w w' : list (queued StateT CostT))
    (m : queued StateT CostT) :
  pop_top w = Some (m, w') -> forall x, In x w -> pair_less m x = false.
Proof.
  revert m w'. induction w as [|y rest IH]; intros m w'; simpl; [discriminate|].
  destruct (pop_top rest) as [[m0 others]|] eqn:Hrest.
  - specialize (IH _ _ eq_refl).
    destruct (pair_less m0 y) eqn:Hm0; intros [= <- <-] x [<-|Hx].
    + apply pair_less_irrefl.
    + destruct (pair_less y x) eqn:Hyx; [|reflexivity].
      rewrite <- (IH x Hx). symmetry. eapply pair_less_trans; eassumption.
    + exact Hm0.
    + auto.
  - apply pop_top_none in Hrest. subst rest.
    intros [= <- <-] x [<-|[]]. apply pair_less_irrefl.
Qed.

Lemma pair_less_cost (a b : queued StateT CostT) :
  pair_less a b = false -> less (first a) (first b) = false.
Proof. unfold pair_less. intros H. now apply orb_false_elim in H. Qed.

End CostOrder.

(** ** The order of [nat], used where the properties are tried out *)

Lemma nat_strict_weak_order : strict_weak_order (CostT := nat).
Proof.
  split; unfold less, nat_less.
  - intros a. apply Nat.ltb_irrefl.
  - intros a b c H1 H2. apply Nat.ltb_lt in H1, H2. apply Nat.ltb_lt. lia.
  - intros a b c H1 H2 H3 H4.
    apply Nat.ltb_ge in H1, H2, H3, H4. split; apply Nat.ltb_ge; lia.
Qed.

(** ** The properties *)

(** C1, as the code has it.  [std::priority_queue] is a max-heap: when the
    caller's [operator<] is a strict weak ordering, the loop of [costSolver]
    pops, whenever the frontier is not empty, an entry of the frontier whose
    cost is greatest under that [operator<], that is, no entry of the
    frontier has a cost that the popped cost is less than.  The cost that
    counts as smallest is popped first only under an inverted [operator<],
    such as the one of [cost_t]. *)
Theorem C1_pops_greatest_cost {StateT CostT : Type}
    {state_equal : Equal StateT} {cost_less : Less CostT}
    (address_of : nat -> Z) (ss : state_space_t StateT CostT)
    (isGoalState : StateT -> bool) (v : cost_vars StateT CostT) :
  strict_weak_order (CostT := CostT) ->
  cwaiting v <> [] ->
  exists i v',
    cost_body address_of ss isGoalState v = Some (i, v')
    /\ In (popped i) (cwaiting v)
    /\ forall x, In x (cwaiting v) ->
         less (first (popped i)) (first x) = false.
Proof.
  intros Horder Hne.
  destruct (cost_body address_of ss isGoalState v) as [[i v']|] eqn:Hb.
  - exists i, v'. split; [reflexivity|].
    destruct (cost_body_some _ _ _ _ Hb) as (w1 & s & rest & Hpop & _).
    split; [exact (proj1 (pop_top_some _ Hpop))|].
    intros x Hx. apply pair_less_cost.
    apply (pop_top_greatest Horder _ Hpop _ Hx).
  - apply cost_body_none in Hb. contradiction.
Qed.

Lemma C1_pops_greatest_cost_witness :
  exists i v',
    cost_body ascending fork anything
      (snd (cost_run ascending fork anything 1))
    = Some (i, v')
    /\ In (popped i)
          (cwaiting
             (snd (cost_run ascending fork
                     anything 1)))
    /\ forall x,
         In x (cwaiting
                 (snd (cost_run ascending fork
                         anything 1))) ->
         less (first (popped i)) (first x) = false.
Proof.
  apply (C1_pops_greatest_cost ascending fork
           anything
           (snd (cost_run ascending fork
                   anything 1))).
  - exact nat_strict_weak_order.
  - vm_compute. discriminate.
Defined.

(** C1 as it is worded fails: with the costs 1 and 2 in the frontier and
    [<] of [nat] as the ordering, the entry of cost 2 is popped. *)
Lemma C1_counterexample :
  ~ pops_least_cost ascending fork anything.
Proof.
  intros H.
  specialize (H 1 _ _ eq_refl
                (mk_queued 1 1%Z (mk_trace (Some (mk_trace None 0)) 1))).
  vm_compute in H. specialize (H (or_introl eq_refl)). discriminate.
Qed.

(** C3, as the code has it.  Both solvers push the root node without
    evaluating the invariant on the initial state.  After any number of
    iterations, every node of the frontier is that root node or holds a
    state that the invariant accepted; so every node that was pushed with a
    parent holds a state that passed the invariant. *)
Theorem C3_frontier_valid_or_root {StateT CostT : Type}
    {state_equal : Equal StateT} {cost_less : Less CostT}
    (address_of : nat -> Z) (ss : state_space_t StateT CostT)
    (isGoalState : StateT -> bool) (order : search_order) (n : nat) :
  Forall (fun node => node = mk_trace None (_initialState ss)
                      \/ _invariantFunction ss (self node) = true)
         (waiting (snd (solver_run ss isGoalState order n)))
  /\ Forall (fun x => second x = mk_trace None (_initialState ss)
                      \/ _invariantFunction ss (self (second x)) = true)
            (cwaiting (snd (cost_run address_of ss isGoalState n))).
Proof.
  split.
  - apply (@iterate_invariant _ _ (solver_body ss isGoalState order)
             (fun v => Forall (fun node =>
                                 node = mk_trace None (_initialState ss)
                                 \/ _invariantFunction ss (self node) = true)
                              (waiting v))
             (fun _ => True)).
    + intros v v' i Hv Hb. split; [|exact I].
      apply (solver_frontier_step ss isGoalState order) with (v := v) (i := i);
        auto.
    + simpl. repeat constructor.
  - apply (@iterate_invariant _ _ (cost_body address_of ss isGoalState)
             (fun v => Forall (fun x =>
                                 second x = mk_trace None (_initialState ss)
                                 \/ _invariantFunction ss (self (second x))
                                    = true)
                              (cwaiting v))
             (fun _ => True)).
    + intros v v' i Hv Hb. split; [|exact I].
      apply (@cost_frontier_step _ _ _ _ address_of ss isGoalState
               (fun node => node = mk_trace None (_initialState ss)
                            \/ _invariantFunction ss (self node) = true))
        with (v := v) (i := i); auto.
    + simpl. repeat constructor.
Qed.

(** C3 as it is worded fails at the root: the frontier that [solver] starts
    from holds the initial state although the invariant rejects it. *)
Lemma C3_counterexample :
  ~ frontier_is_valid (rejected_start false) anything breadth_first.
Proof.
  intros H. specialize (H 0). inversion H as [|? ? Hroot _].
  discriminate Hroot.
Qed.

Lemma push_successors_none {StateT CostT : Type}
    (ss : state_space_t StateT CostT) (currentState : StateT)
    (traceState : trace_state StateT) (transitions : list (StateT -> StateT))
    (w : list (trace_state StateT)) :
  (forall t, In t transitions ->
             _invariantFunction ss (t currentState) = false) ->
  push_successors ss currentState traceState transitions w = w.
Proof.
  unfold push_successors. revert w.
  induction transitions as [|t ts IH]; intros w Hall; simpl; [reflexivity|].
  rewrite (Hall t (or_introl eq_refl)). apply IH.
  intros t' Ht'. apply Hall. now right.
Qed.

Lemma push_cost_successors_none {StateT CostT : Type} (address_of : nat -> Z)
    (ss : state_space_t StateT CostT) (currentState : StateT)
    (currentCost : CostT) (traceState : trace_state StateT)
    (transitions : list (StateT -> StateT))
    (w : list (queued StateT CostT)) (k : nat) :
  (forall t, In t transitions ->
             _invariantFunction ss (t currentState) = false) ->
  push_cost_successors address_of ss currentState currentCost traceState
    transitions w k = (w, k).
Proof.
  unfold push_cost_successors. revert w k.
  induction transitions as [|t ts IH]; intros w k Hall; simpl; [reflexivity|].
  rewrite (Hall t (or_introl eq_refl)). simpl. apply IH.
  intros t' Ht'. apply Hall. now right.
Qed.

(** C4, as the code has it.  When the initial state does not satisfy the
    goal predicate and the invariant rejects every candidate successor of
    the initial state, [check] returns the empty result set, whatever the
    transition generator, in either mode and whether or not the invariant
    accepts the initial state. *)
Theorem C4_nothing_valid_nothing_found {StateT CostT : Type}
    {state_equal : Equal StateT} {cost_less : Less CostT}
    (address_of : nat -> Z) (ss : state_space_t StateT CostT)
    (isGoalState : StateT -> bool) (order : search_order) (fuel : nat) :
  isGoalState (_initialState ss) = false ->
  (forall t, In t (_transitionFunction ss (_initialState ss)) ->
             _invariantFunction ss (t (_initialState ss)) = false) ->
  check address_of ss isGoalState order (S fuel) = Some [].
Proof.
  intros Hgoal Hall. unfold check. destruct (_useCost ss).
  - assert (Hb : cost_body address_of ss isGoalState (cost_init address_of ss)
                 = Some (mk_iteration
                           (mk_queued (_initialCost ss) (address_of 0)
                              (mk_trace None (_initialState ss))) true,
                         {| cpassed := [_initialState ss];
                            cwaiting := [];
                            solution := [];
                            ccontainedSolution := [];
                            cresult := [];
                            allocated := 1 |})).
    { unfold cost_body. simpl. rewrite Hgoal. simpl.
      rewrite push_cost_successors_none by exact Hall. reflexivity. }
    unfold costSolver, cost_run. rewrite iterate_S, Hb.
    rewrite iterate_done by (apply cost_body_none; reflexivity).
    reflexivity.
  - assert (Hb : solver_body ss isGoalState order (solver_init ss)
                 = Some (mk_iteration (mk_trace None (_initialState ss)) true,
                         {| passed := [_initialState ss];
                            waiting := [];
                            traces := [];
                            containedSolution := [];
                            result := [] |})).
    { assert (Ht : take order (waiting (solver_init ss))
                   = Some (mk_trace None (_initialState ss), []))
        by (destruct order; reflexivity).
      unfold solver_body. rewrite Ht. simpl. rewrite Hgoal. simpl.
      rewrite push_successors_none by exact Hall. reflexivity. }
    unfold solver, solver_run. rewrite iterate_S, Hb.
    rewrite iterate_done by (apply solver_body_none; reflexivity).
    reflexivity.
Qed.

Lemma C4_nothing_valid_nothing_found_witness :
  (_invariantFunction (dead_end true) 0 = false
   /\ _transitionFunction (dead_end true) 0 = [S]
   /\ check ascending (dead_end true) positive breadth_first 1 = Some []
   /\ check ascending (dead_end false) positive depth_first 1 = Some [])
  /\ (_invariantFunction (lone_start false) 0 = true
      /\ _transitionFunction (lone_start false) 0 = [S]
      /\ check ascending (lone_start false) positive breadth_first 1
         = Some []).
Proof.
  split; [split; [reflexivity|]; split; [reflexivity|]; split|
          split; [reflexivity|]; split; [reflexivity|]].
  - apply (C4_nothing_valid_nothing_found ascending (dead_end true)
             positive breadth_first 0); [reflexivity|].
    intros t [<-|[]]. reflexivity.
  - apply (C4_nothing_valid_nothing_found ascending (dead_end false)
             positive depth_first 0); [reflexivity|].
    intros t [<-|[]]. reflexivity.
  - apply (C4_nothing_valid_nothing_found ascending (lone_start false)
             positive breadth_first 0); [reflexivity|].
    intros t [<-|[]]. reflexivity.
Defined.

(** C4 as it is worded fails: the invariant rejects the initial state, which
    satisfies the goal predicate, and [check] returns the path made of the
    initial state alone. *)
Lemma C4_counterexample :
  ~ rejected_start_gives_nothing ascending (rejected_start false) anything
      breadth_first.
Proof.
  intros H. destruct (H eq_refl) as [fuel Hfuel].
  destruct fuel as [|[|fuel]]; discriminate Hfuel.
Qed.

(** C5.  In both solvers, and whatever the state space, the states on which
    the transition generator is called are pairwise different under
    [operator==]: no state is expanded that is [==] to one expanded before,
    however many nodes of the frontier carry it. *)
Theorem C5_expanded_at_most_once {StateT CostT : Type}
    {state_equal : Equal StateT} {cost_less : Less CostT}
    (address_of : nat -> Z) (ss : state_space_t StateT CostT)
    (isGoalState : StateT -> bool) (order : search_order) (n : nat) :
  distinct_states
    (expansions (@self StateT) (fst (solver_run ss isGoalState order n)))
  /\ distinct_states
       (expansions (fun x : queued StateT CostT => self (second x))
          (fst (cost_run address_of ss isGoalState n))).
Proof.
  split.
  - rewrite expansions_flat_map.
    change (flat_map _ _) with
      (passed (solver_init ss)
       ++ flat_map (fun i => if expanded i then [self (popped i)] else [])
            (fst (solver_run ss isGoalState order n))).
    unfold solver_run.
    rewrite <- (@iterate_accumulates _ _ _ (solver_body ss isGoalState order)
                  (@passed StateT)).
    + apply (@iterate_invariant _ _ (solver_body ss isGoalState order)
               (fun v => distinct_states (passed v)) (fun _ => True)).
      * intros v v' i Hv Hb. split; [|exact I].
        destruct (solver_body_some _ _ _ _ Hb)
          as (w1 & s & rest & _ & _ & He & -> & _).
        destruct (expanded i); [|exact Hv].
        apply distinct_states_snoc; [exact Hv|].
        symmetry in He. now apply negb_true_iff in He.
      * constructor.
    + intros v v' i Hb.
      destruct (solver_body_some _ _ _ _ Hb)
        as (w1 & s & rest & _ & _ & _ & -> & _).
      destruct (expanded i); [reflexivity | now rewrite app_nil_r].
  - rewrite expansions_flat_map.
    change (flat_map _ _) with
      (cpassed (cost_init address_of ss)
       ++ flat_map (fun i : iteration (queued StateT CostT) =>
                      if expanded i then [self (second (popped i))] else [])
            (fst (cost_run address_of ss isGoalState n))).
    unfold cost_run.
    rewrite <- (@iterate_accumulates _ _ _
                  (cost_body address_of ss isGoalState)
                  (@cpassed StateT CostT)).
    + apply (@iterate_invariant _ _ (cost_body address_of ss isGoalState)
               (fun v => distinct_states (cpassed v)) (fun _ => True)).
      * intros v v' i Hv Hb. split; [|exact I].
        destruct (cost_body_some _ _ _ _ Hb)
          as (w1 & s & rest & _ & _ & He & -> & _).
        destruct (expanded i); [|exact Hv].
        apply distinct_states_snoc; [exact Hv|].
        symmetry in He. now apply negb_true_iff in He.
      * constructor.
    + intros v v' i Hb.
      destruct (cost_body_some _ _ _ _ Hb)
        as (w1 & s & rest & _ & _ & _ & -> & _).
      destruct (expanded i); [reflexivity | now rewrite app_nil_r].
Qed.

(** X15.  At every point of a run of either solver, the result set holds
    one entry for each iteration that popped a state satisfying the goal
    predicate, in the order of those iterations, and the entry of an
    iteration contains, as a segment, the chain of states from the root to
    the node it popped; and an iteration expands the state it popped exactly
    when that state is not [==] to one expanded before, whether or not the
    state satisfies the goal predicate. *)
Theorem every_goal_pop_appends_an_entry {StateT CostT : Type}
    {state_equal : Equal StateT} {cost_less : Less CostT}
    (address_of : nat -> Z) (ss : state_space_t StateT CostT)
    (isGoalState : StateT -> bool) (fuel : nat) :
  (forall order,
     Forall2 (fun i p => exists pre post,
                 p = pre ++ chain (popped i) ++ post)
       (goal_pops isGoalState (@self StateT)
          (fst (solver_run ss isGoalState order fuel)))
       (result (snd (solver_run ss isGoalState order fuel)))
     /\ forall before i after,
          fst (solver_run ss isGoalState order fuel) = before ++ i :: after ->
          expanded i
          = negb (find (expansions (@self StateT) before) (self (popped i))))
  /\ (Forall2 (fun i p => exists pre post,
                  p = pre ++ chain (second (popped i)) ++ post)
        (goal_pops isGoalState
           (fun x : queued StateT CostT => self (second x))
           (fst (cost_run address_of ss isGoalState fuel)))
        (cresult (snd (cost_run address_of ss isGoalState fuel)))
      /\ forall before i after,
             fst (cost_run address_of ss isGoalState fuel)
             = before ++ i :: after ->
             expanded i
             = negb (find (expansions
                             (fun x : queued StateT CostT => self (second x))
                             before)
                          (self (second (popped i))))).
Proof.
  split.
  - intros order. split.
    + destruct (@iterate_reports _ _ _ (solver_body ss isGoalState order)
                  (@result StateT)
                  (fun i => isGoalState (self (popped i)))
                  (fun i p => exists pre post,
                       p = pre ++ chain (popped i) ++ post))
        with (n := fuel) (v := solver_init ss) as (new & Hres & Hnew).
      * intros v v' i Hb.
        destruct (solver_body_some _ _ _ _ Hb)
          as (w1 & s & rest & _ & _ & _ & _ & _ & _ & _ & ->).
        destruct (isGoalState (self (popped i))); [|reflexivity].
        eexists. split; [reflexivity|]. eauto.
      * unfold solver_run. rewrite Hres. exact Hnew.
    + intros before i after Hlog. unfold solver_run in Hlog.
      destruct (iterate_at _ _ _ _ _ _ Hlog) as [Hbefore [v' Hb]].
      destruct (solver_body_some _ _ _ _ Hb)
        as (w1 & s & rest & _ & _ & -> & _).
      rewrite (@iterate_accumulates _ _ _ (solver_body ss isGoalState order)
                 (@passed StateT)
                 (fun i => if expanded i then [self (popped i)] else [])).
      * rewrite Hbefore, expansions_flat_map. reflexivity.
      * intros u u' j Hj.
        destruct (solver_body_some _ _ _ _ Hj)
          as (? & ? & ? & _ & _ & _ & -> & _).
        destruct (expanded j); [reflexivity | now rewrite app_nil_r].
  - split.
    + destruct (@iterate_reports _ _ _ (cost_body address_of ss isGoalState)
                  (@cresult StateT CostT)
                  (fun i => isGoalState (self (second (popped i))))
                  (fun i p => exists pre post,
                       p = pre ++ chain (second (popped i)) ++ post))
        with (n := fuel) (v := cost_init address_of ss) as (new & Hres & Hnew).
      * intros v v' i Hb.
        destruct (cost_body_some _ _ _ _ Hb)
          as (w1 & s & rest & _ & _ & _ & _ & _ & _ & _ & ->).
        destruct (isGoalState (self (second (popped i)))); [|reflexivity].
        eexists. split; [reflexivity|]. eauto.
      * unfold cost_run. rewrite Hres. exact Hnew.
    + intros before i after Hlog. unfold cost_run in Hlog.
      destruct (iterate_at _ _ _ _ _ _ Hlog) as [Hbefore [v' Hb]].
      destruct (cost_body_some _ _ _ _ Hb)
        as (w1 & s & rest & _ & _ & -> & _).
      rewrite (@iterate_accumulates _ _ _
                 (cost_body address_of ss isGoalState)
                 (@cpassed StateT CostT)
                 (fun i => if expanded i then [self (second (popped i))]
                           else [])).
      * rewrite Hbefore, expansions_flat_map. reflexivity.
      * intros u u' j Hj.
        destruct (cost_body_some _ _ _ _ Hj)
          as (? & ? & ? & _ & _ & _ & -> & _).
        destruct (expanded j); [reflexivity | now rewrite app_nil_r].
Qed.

(** C8, as the code has it.  A state that the invariant rejects and that is
    not the initial state is in no entry of the result set and is never
    expanded, in either solver. *)
Theorem C8_rejected_state_never_used {StateT CostT : Type}
    {state_equal : Equal StateT} {cost_less : Less CostT}
    (address_of : nat -> Z) (ss : state_space_t StateT CostT)
    (isGoalState : StateT -> bool) (order : search_order) (n : nat)
    (s : StateT) :
  _invariantFunction ss s = false ->
  s <> _initialState ss ->
  ((forall p, In p (result (snd (solver_run ss isGoalState order n))) ->
              ~ In s p)
   /\ ~ In s (expansions (@self StateT)
                (fst (solver_run ss isGoalState order n))))
  /\ ((forall p,
         In p (cresult (snd (cost_run address_of ss isGoalState n))) ->
         ~ In s p)
      /\ ~ In s (expansions (fun x : queued StateT CostT => self (second x))
                   (fst (cost_run address_of ss isGoalState n)))).
Proof.
  intros Hinv Hinit.
  assert (HQ : ~ (s = _initialState ss \/ _invariantFunction ss s = true))
    by (intros [?|?]; congruence).
  split.
  - destruct (@solver_states _ _ _ ss isGoalState order
                (fun x => x = _initialState ss
                          \/ _invariantFunction ss x = true))
      with (n := n) as [Hres Hlog]; auto.
    rewrite Forall_forall in Hres, Hlog. split.
    + intros p Hp Hs. specialize (Hres p Hp). rewrite Forall_forall in Hres.
      auto.
    + unfold expansions. intros Hs. apply in_map_iff in Hs.
      destruct Hs as (i & <- & Hi). apply filter_In in Hi.
      specialize (Hlog i (proj1 Hi)). rewrite Forall_forall in Hlog.
      apply HQ, Hlog, chain_last.
  - destruct (@cost_states _ _ _ _ address_of ss isGoalState
                (fun x => x = _initialState ss
                          \/ _invariantFunction ss x = true))
      with (n := n) as [Hres Hlog]; auto.
    rewrite Forall_forall in Hres, Hlog. split.
    + intros p Hp Hs. specialize (Hres p Hp). rewrite Forall_forall in Hres.
      auto.
    + unfold expansions. intros Hs. apply in_map_iff in Hs.
      destruct Hs as (i & <- & Hi). apply filter_In in Hi.
      specialize (Hlog i (proj1 Hi)). rewrite Forall_forall in Hlog.
      apply HQ, Hlog, chain_last.
Qed.

Lemma every_goal_pop_appends_an_entry_witness :
  (Forall2 (fun i p => exists pre post,
               p = pre ++ chain (popped i) ++ post)
     (goal_pops positive (@self nat)
        (fst (solver_run line positive breadth_first 3)))
     [[0; 1]; [0; 1; 0; 2; 0; 1]]
   /\ expanded (mk_iteration (mk_trace (Some (mk_trace None 0)) 1) true)
      = negb (find
                (expansions (@self nat)
                   [mk_iteration (mk_trace None 0) true])
                1))
  /\ Forall2 (fun i p => exists pre post,
                 p = pre ++ chain (second (popped i)) ++ post)
       (goal_pops positive (fun x : queued nat nat => self (second x))
          (fst (cost_run ascending line_cost positive 3)))
       [[0; 1]; [0; 1; 0; 2; 0; 1]].
Proof.
  destruct (every_goal_pop_appends_an_entry ascending line positive 3)
    as [Hs _].
  destruct (every_goal_pop_appends_an_entry ascending line_cost positive 3)
    as [_ [Hc _]].
  destruct (Hs breadth_first) as [H1 H2].
  split; [split; [exact H1|]|exact Hc].
  exact (H2 [mk_iteration (mk_trace None 0) true]
            (mk_iteration (mk_trace (Some (mk_trace None 0)) 1) true)
            [mk_iteration (mk_trace (Some (mk_trace None 0)) 2) true]
            eq_refl).
Defined.

Lemma C8_rejected_state_never_used_witness :
  ((forall p,
      In p (result (snd (solver_run (short_line false) anything
                           breadth_first 5))) -> ~ In 2 p)
   /\ ~ In 2 (expansions (@self nat)
                (fst (solver_run (short_line false) anything
                        breadth_first 5))))
  /\ ((forall p,
         In p (cresult (snd (cost_run ascending (short_line false) anything
                               5))) -> ~ In 2 p)
      /\ ~ In 2 (expansions (fun x : queued nat nat => self (second x))
                   (fst (cost_run ascending (short_line false) anything 5)))).
Proof.
  apply (C8_rejected_state_never_used ascending (short_line false) anything
           breadth_first 5 (s := 2)).
  - reflexivity.
  - discriminate.
Defined.

(** C8 as it is worded fails for the initial state: 0 is a candidate
    successor of 1 that the invariant rejects, and 0 is in the paths found
    and was expanded. *)
Lemma C8_counterexample :
  ~ rejected_never_used (there_and_back false) anything breadth_first.
Proof.
  intros H. destruct (H 2 0) as [Hp _].
  - exists (mk_iteration (mk_trace (Some (mk_trace None 0)) 1) true),
           (fun s => 1 - s).
    repeat split.
    + right. left. reflexivity.
    + left. reflexivity.
  - apply (Hp [0]); left; reflexivity.
Qed.

(** ** What the result of [check] depends on *)

Section SameBehaviour.

Context {StateT CostT : Type}.
Context {state_equal : Equal StateT} {cost_less : Less CostT}.
Variables ss1 ss2 : state_space_t StateT CostT.
Variables isGoalState1 isGoalState2 : StateT -> bool.
Hypothesis same : same_behaviour ss1 ss2.
Hypothesis same_goal : forall s, isGoalState1 s = isGoalState2 s.

Lemma push_successors_same (currentState : StateT)
    (traceState : trace_state StateT) (w : list (trace_state StateT)) :
  push_successors ss1 currentState traceState
    (_transitionFunction ss1 currentState) w
  = push_successors ss2 currentState traceState
      (_transitionFunction ss2 currentState) w.
Proof.
  pose proof (same_successors same currentState) as Hmap.
  unfold push_successors. revert w.
  generalize dependent (_transitionFunction ss2 currentState).
  induction (_transitionFunction ss1 currentState) as [|t l1 IH];
    intros [|t' l2] Hmap w; try discriminate; [reflexivity|].
  simpl in *. injection Hmap as Ht Hmap.
  rewrite Ht, (same_invariant same). apply IH, Hmap.
Qed.

Lemma solver_body_same (order : search_order) (v : solver_vars StateT) :
  solver_body ss1 isGoalState1 order v = solver_body ss2 isGoalState2 order v.
Proof.
  unfold solver_body.
  destruct (take order (waiting v)) as [[node w1]|]; [|reflexivity].
  rewrite same_goal.
  destruct (isGoalState2 (self node));
    [destruct (walk_parents node (traces v))|];
    destruct (find (passed v) (self node)); simpl;
    rewrite ?push_successors_same; reflexivity.
Qed.

Variables address_of1 address_of2 : nat -> Z.
Hypothesis same_address : forall k, address_of1 k = address_of2 k.

Lemma push_cost_successors_same (currentState : StateT) (currentCost : CostT)
    (traceState : trace_state StateT) (w : list (queued StateT CostT))
    (k : nat) :
  push_cost_successors address_of1 ss1 currentState currentCost traceState
    (_transitionFunction ss1 currentState) w k
  = push_cost_successors address_of2 ss2 currentState currentCost traceState
      (_transitionFunction ss2 currentState) w k.
Proof.
  pose proof (same_successors same currentState) as Hmap.
  unfold push_cost_successors. revert w k.
  generalize dependent (_transitionFunction ss2 currentState).
  induction (_transitionFunction ss1 currentState) as [|t l1 IH];
    intros [|t' l2] Hmap w k; try discriminate; [reflexivity|].
  simpl in *. injection Hmap as Ht Hmap.
  rewrite Ht, (same_invariant same), (same_cost same), same_address.
  destruct (_invariantFunction ss2 (t' currentState)); apply IH, Hmap.
Qed.

Lemma cost_body_same (v : cost_vars StateT CostT) :
  cost_body address_of1 ss1 isGoalState1 v
  = cost_body address_of2 ss2 isGoalState2 v.
Proof.
  unfold cost_body.
  destruct (pop_top (cwaiting v)) as [[top w1]|]; [|reflexivity].
  rewrite same_goal.
  destruct (isGoalState2 (self (second top)));
    [destruct (walk_parents (second top) (solution v))|];
    destruct (find (cpassed v) (self (second top))); simpl;
    rewrite ?push_cost_successors_same; reflexivity.
Qed.

End SameBehaviour.

(** Two runs on state spaces that a search cannot tell apart, with the
    nodes at the same addresses, give the same result. *)
Lemma check_same_behaviour {StateT CostT : Type}
    {state_equal : Equal StateT} {cost_less : Less CostT}
    (ss1 ss2 : state_space_t StateT CostT)
    (isGoalState1 isGoalState2 : StateT -> bool)
    (address_of : nat -> Z) (order : search_order) (fuel : nat) :
  same_behaviour ss1 ss2 ->
  (forall s, isGoalState1 s = isGoalState2 s) ->
  check address_of ss1 isGoalState1 order fuel
  = check address_of ss2 isGoalState2 order fuel.
Proof.
  intros Hsame Hgoal. unfold check.
  rewrite <- (same_useCost Hsame).
  destruct (_useCost ss1).
  - unfold costSolver, cost_run.
    rewrite (iterate_ext _ _
               (@cost_body_same _ _ _ _ _ _ _ _ Hsame Hgoal
                  address_of address_of (fun _ => eq_refl))).
    unfold cost_init.
    now rewrite (same_initialState Hsame), (same_initialCost Hsame).
  - unfold solver, solver_run.
    rewrite (iterate_ext _ _
               (@solver_body_same _ _ _ _ _ _ _ Hsame Hgoal order)).
    unfold solver_init. now rewrite (same_initialState Hsame).
Qed.

Lemma same_behaviour_refl {StateT CostT : Type}
    (ss : state_space_t StateT CostT) : same_behaviour ss ss.
Proof. split; reflexivity. Qed.

(** ** What the addresses of the nodes decide

    The priority queue of [costSolver] compares the addresses of two nodes
    and nothing else of them: two runs whose allocations lie in the same
    order pop the same nodes. *)

Section AddressOrder.

Context {StateT CostT : Type}.
Context {state_equal : Equal StateT} {cost_less : Less CostT}.
Variables address_of1 address_of2 : nat -> Z.
Variable ss : state_space_t StateT CostT.
Variable isGoalState : StateT -> bool.
Hypothesis same_order : forall i j,
  (address_of1 i <? address_of1 j)%Z = (address_of2 i <? address_of2 j)%Z.

Lemma pair_less_same_entry (x x' y y' : queued StateT CostT) :
  same_entry address_of1 address_of2 x x' ->
  same_entry address_of1 address_of2 y y' ->
  pair_less x y = pair_less x' y'.
Proof.
  intros (Hf & _ & k & Hk & Hk') (Hg & _ & l & Hl & Hl').
  unfold pair_less. rewrite Hf, Hg, Hk, Hk', Hl, Hl', same_order.
  reflexivity.
Qed.

Lemma pop_top_same_entry (w w' : list (queued StateT CostT)) :
  Forall2 (same_entry address_of1 address_of2) w w' ->
  match pop_top w, pop_top w' with
  | Some (m, others), Some (m', others') =>
      same_entry address_of1 address_of2 m m'
      /\ Forall2 (same_entry address_of1 address_of2) others others'
  | None, None => True
  | _, _ => False
  end.
Proof.
  induction 1 as [|x x' w w' Hx Hw IH]; simpl; [exact I|].
  destruct (pop_top w) as [[m o]|], (pop_top w') as [[m' o']|];
    try contradiction.
  - destruct IH as [Hm Ho]. rewrite (pair_less_same_entry Hm Hx).
    destruct (pair_less m' x'); split; auto.
  - split; [exact Hx | constructor].
Qed.

Lemma push_cost_successors_same_entry (currentState : StateT)
    (currentCost : CostT) (traceState : trace_state StateT)
    (transitions : list (StateT -> StateT)) :
  forall (w w' : list (queued StateT CostT)) (k : nat),
    Forall2 (same_entry address_of1 address_of2) w w' ->
    Forall2 (same_entry address_of1 address_of2)
      (fst (push_cost_successors address_of1 ss currentState currentCost
              traceState transitions w k))
      (fst (push_cost_successors address_of2 ss currentState currentCost
              traceState transitions w' k))
    /\ snd (push_cost_successors address_of1 ss currentState currentCost
              traceState transitions w k)
       = snd (push_cost_successors address_of2 ss currentState currentCost
                traceState transitions w' k).
Proof.
  unfold push_cost_successors.
  induction transitions as [|t l IH]; intros w w' k Hw; simpl;
    [split; [exact Hw | reflexivity]|].
  destruct (_invariantFunction ss (t currentState)); simpl.
  - apply IH. apply Forall2_app; [exact Hw|].
    constructor; [|constructor]. repeat split; simpl; eauto.
  - apply IH, Hw.
Qed.

(** An iteration of the loop does in both runs the same to the locals. *)
Lemma cost_body_same_locals (v w : cost_vars StateT CostT) :
  same_locals address_of1 address_of2 v w ->
  match cost_body address_of1 ss isGoalState v,
        cost_body address_of2 ss isGoalState w with
  | Some (i, v'), Some (j, w') =>
      same_entry address_of1 address_of2 (popped i) (popped j)
      /\ expanded i = expanded j
      /\ same_locals address_of1 address_of2 v' w'
  | None, None => True
  | _, _ => False
  end.
Proof.
  intros (Hp & Hw & Hs & Hc & Hr & Ha).
  unfold cost_body.
  pose proof (pop_top_same_entry Hw) as Hpop.
  destruct (pop_top (cwaiting v)) as [[top w1]|],
           (pop_top (cwaiting w)) as [[top' w1']|];
    try contradiction; [|exact I].
  destruct Hpop as [Htop Hrest].
  pose proof Htop as (Hf & Hsec & Hk).
  rewrite <- Hsec, <- Hf, <- Hp, <- Hs, <- Hc, <- Hr, <- Ha.
  pose proof (push_cost_successors_same_entry (self (second top))
                (first top)) as Hpush.
  destruct (isGoalState (self (second top)));
    [destruct (walk_parents (second top) (solution v)) as [root sol]|];
    destruct (find (cpassed v) (self (second top))); simpl.
  - repeat split; simpl; auto.
  - specialize (Hpush root
                  (_transitionFunction ss (self (second top))) w1 w1'
                  (allocated v) Hrest).
    destruct (push_cost_successors address_of1 ss (self (second top))
                (first top) root
                (_transitionFunction ss (self (second top))) w1
                (allocated v)) as [w2 k2],
             (push_cost_successors address_of2 ss (self (second top))
                (first top) root
                (_transitionFunction ss (self (second top))) w1'
                (allocated v)) as [w2' k2'].
    simpl in Hpush. destruct Hpush as [Hw2 Hk2].
    repeat split; simpl; auto.
  - repeat split; simpl; auto.
  - specialize (Hpush (second top)
                  (_transitionFunction ss (self (second top))) w1 w1'
                  (allocated v) Hrest).
    destruct (push_cost_successors address_of1 ss (self (second top))
                (first top) (second top)
                (_transitionFunction ss (self (second top))) w1
                (allocated v)) as [w2 k2],
             (push_cost_successors address_of2 ss (self (second top))
                (first top) (second top)
                (_transitionFunction ss (self (second top))) w1'
                (allocated v)) as [w2' k2'].
    simpl in Hpush. destruct Hpush as [Hw2 Hk2].
    repeat split; simpl; auto.
Qed.

Lemma cost_run_same_locals (n : nat) :
  forall v w : cost_vars StateT CostT,
    same_locals address_of1 address_of2 v w ->
    same_locals address_of1 address_of2
      (snd (iterate (cost_body address_of1 ss isGoalState) n v))
      (snd (iterate (cost_body address_of2 ss isGoalState) n w)).
Proof.
  induction n as [|n IH]; intros v w H; [exact H|].
  rewrite !iterate_S. pose proof (cost_body_same_locals H) as Hb.
  destruct (cost_body address_of1 ss isGoalState v) as [[i v']|],
           (cost_body address_of2 ss isGoalState w) as [[j w']|];
    try contradiction; simpl; [apply IH, Hb | exact H].
Qed.

(** [costSolver] returns the same in two runs whose allocations lie in the
    same order. *)
Lemma costSolver_address_order (fuel : nat) :
  costSolver address_of1 ss isGoalState fuel
  = costSolver address_of2 ss isGoalState fuel.
Proof.
  unfold costSolver, cost_run.
  destruct (@cost_run_same_locals fuel (cost_init address_of1 ss)
              (cost_init address_of2 ss)) as (_ & Hw & _ & _ & Hr & _).
  { repeat split; simpl; try reflexivity.
    constructor; [|constructor]. repeat split; simpl; eauto. }
  rewrite Hr.
  destruct (cwaiting
              (snd (iterate (cost_body address_of1 ss isGoalState) fuel
                      (cost_init address_of1 ss)))),
           (cwaiting
              (snd (iterate (cost_body address_of2 ss isGoalState) fuel
                      (cost_init address_of2 ss))));
    inversion Hw; reflexivity.
Qed.

End AddressOrder.

(** C10, as the code has it.  [check] is deterministic up to the order in
    which the addresses of the trace nodes lie.  Two runs on the same
    configuration (the same initial state and cost, the same candidate
    successors generated at each state, in the same order, the same values
    of the invariant, of the cost function and of the goal predicate, and
    the same search order) give identical result sequences in the unordered
    mode; in the cost-aware mode they do whenever the nodes, numbered in the
    order of their allocation, lie in the same order of addresses in both
    runs, the priority queue comparing the addresses of two nodes when
    neither of their costs is less than the other. *)
Theorem C10_result_follows_address_order {StateT CostT : Type}
    {state_equal : Equal StateT} {cost_less : Less CostT}
    (ss1 ss2 : state_space_t StateT CostT)
    (isGoalState1 isGoalState2 : StateT -> bool)
    (address_of1 address_of2 : nat -> Z)
    (order : search_order) (fuel : nat) :
  same_behaviour ss1 ss2 ->
  (forall s, isGoalState1 s = isGoalState2 s) ->
  (_useCost ss1 = true ->
   forall i j,
     (address_of1 i <? address_of1 j)%Z = (address_of2 i <? address_of2 j)%Z) ->
  check address_of1 ss1 isGoalState1 order fuel
  = check address_of2 ss2 isGoalState2 order fuel.
Proof.
  intros Hsame Hgoal Haddr.
  rewrite <- (@check_same_behaviour _ _ _ _ ss1 ss2 isGoalState1
                isGoalState2 address_of2 order fuel Hsame Hgoal).
  unfold check. destruct (_useCost ss1); [|reflexivity].
  apply costSolver_address_order, Haddr, eq_refl.
Qed.

Lemma C10_result_follows_address_order_witness :
  _useCost level_fork = true
  /\ check ascending level_fork positive breadth_first 3
     = Some [[0; 2]; [0; 2; 0; 1; 0; 2]]
  /\ check ascending level_fork positive breadth_first 3
     = check spaced level_fork positive breadth_first 3.
Proof.
  split; [reflexivity|]. split; [reflexivity|].
  apply (@C10_result_follows_address_order nat nat _ _ level_fork level_fork
           positive positive ascending spaced breadth_first 3).
  - split; reflexivity.
  - reflexivity.
  - intros _ i j. unfold ascending, spaced.
    destruct (Z.ltb_spec (Z.of_nat i) (Z.of_nat j)),
             (Z.ltb_spec (4096 + 48 * Z.of_nat i) (4096 + 48 * Z.of_nat j));
      (reflexivity || lia).
Defined.

(** C10 as it is worded fails in the cost-aware mode: with 1 and 2 in the
    frontier at the same cost, the node at the greater address is popped
    first, and the result sequence follows the addresses. *)
Lemma C10_counterexample :
  ~ same_result_every_run level_fork positive breadth_first 3.
Proof.
  intros H. specialize (H ascending descending). discriminate H.
Qed.

(** C2 fails on the code.  On the line 0 -> 1 -> 2 with 1 and 2 as goals,
    both solvers return a second entry that is not a state sequence of the
    state space: [traces] (or [solution]) and [containedSolution] are never
    cleared, and the walk over the parents leaves [traceState] at the root,
    which becomes the parent of the children of a goal node. *)
Theorem C2_second_path_is_not_a_path :
  solver line positive breadth_first 3 = Some [[0; 1]; [0; 1; 0; 2; 0; 1]]
  /\ solver line positive depth_first 3 = Some [[0; 1]; [0; 1; 0; 2; 0; 1]]
  /\ costSolver ascending line_cost positive 3
     = Some [[0; 1]; [0; 1; 0; 2; 0; 1]]
  /\ is_path line positive [0; 1] = true
  /\ is_path line positive [0; 1; 0; 2; 0; 1] = false
  /\ map (fun i => chain (popped i))
       (fst (solver_run line positive breadth_first 3))
     = [[0]; [0; 1]; [0; 2]].
Proof. repeat split. Qed.

(** C6 fails on the code, by the defects that C2 meets.  On the line
    0 -> 1 -> 2 with 1 and 2 as goals, the breadth-first search appends for
    the goal state 2, when it first pops it, an entry of six states that
    ends in 1, while 0, 1, 2 is a path to 2 of two transitions. *)
Theorem C6_first_path_not_shortest :
  solver line positive breadth_first 3 = Some [[0; 1]; [0; 1; 0; 2; 0; 1]]
  /\ map (fun i => self (popped i))
       (goal_pops positive (@self nat)
          (fst (solver_run line positive breadth_first 3)))
     = [1; 2]
  /\ is_path line positive [0; 1; 2] = true
  /\ length [0; 1; 2] < length [0; 1; 0; 2; 0; 1].
Proof. repeat split. simpl. lia. Qed.

(** C7 fails on the code, by the defects that C2 meets.  On the line
    0 -> 1 -> 2 with 1 and 2 as goals, either solver does go on after the
    first goal: it expands 0, 1 and 2, and it returns two entries for the
    two iterations that popped a goal state.  But the entry for the second
    of them, which popped 2, is not a path: it is the six states
    0, 1, 0, 2, 0, 1, which end in 1; it is not a path of the state space,
    and it is not the chain of the node popped either, which is 0, 2 and
    is no path itself, where the path to 2 is 0, 1, 2. *)
Theorem C7_second_goal_pop_gets_no_path :
  solver line positive breadth_first 3 = Some [[0; 1]; [0; 1; 0; 2; 0; 1]]
  /\ costSolver ascending line_cost positive 3
     = Some [[0; 1]; [0; 1; 0; 2; 0; 1]]
  /\ expansions (@self nat) (fst (solver_run line positive breadth_first 3))
     = [0; 1; 2]
  /\ map (fun i => self (popped i))
       (goal_pops positive (@self nat)
          (fst (solver_run line positive breadth_first 3)))
     = [1; 2]
  /\ map (fun i => chain (popped i))
       (goal_pops positive (@self nat)
          (fst (solver_run line positive breadth_first 3)))
     = [[0; 1]; [0; 2]]
  /\ map (fun i => chain (second (popped i)))
       (goal_pops positive (fun x : queued nat nat => self (second x))
          (fst (cost_run ascending line_cost positive 3)))
     = [[0; 1]; [0; 2]]
  /\ is_path line positive [0; 1; 0; 2; 0; 1] = false
  /\ is_path line positive [0; 2] = false
  /\ is_path line positive [0; 1; 2] = true.
Proof. repeat split. Qed.

(** ** The boat of [family.cpp] *)

Lemma transitions_capacity (s : state_t) (t : state_t -> state_t) :
  In t (transitions s) ->
  boat_t.capacity (boat (t s)) = boat_t.capacity (boat s).
Proof.
  unfold transitions. intros Hin. apply in_app_or in Hin.
  destruct Hin as [Hin|Hin].
  - destruct (boat_t.pos (boat s));
      [destruct (boat_t.passengers (boat s) >? 0)%Z | |
       destruct (boat_t.passengers (boat s) >? 0)%Z];
      simpl in Hin; intuition (subst; reflexivity).
  - apply in_flat_map in Hin. destruct Hin as (i & _ & Hin).
    destruct (person_pos s i);
      destruct (boat_t.pos_eqb (boat_t.pos (boat s)) boat_t.shore1);
      destruct (boat_t.pos_eqb (boat_t.pos (boat s)) boat_t.shore2);
      simpl in Hin; intuition (subst; reflexivity).
Qed.

Lemma river_crossing_valid_capacity (s : state_t) :
  river_crossing_valid s = true ->
  (boat_t.passengers (boat s) <= boat_t.capacity (boat s))%Z.
Proof.
  unfold river_crossing_valid.
  destruct (boat_t.passengers (boat s) >? boat_t.capacity (boat s))%Z eqn:Hgt;
    [discriminate|].
  intros _. rewrite Z.gtb_ltb in Hgt. now apply Z.ltb_ge in Hgt.
Qed.

(** C9.  Whatever the cost function and the addresses of the nodes, no
    state of a path that [solve] returns has more than two passengers on
    the boat: the capacity stays two, and apart from the initial state,
    which has no passenger, every state of a path passed
    [river_crossing_valid]. *)
Theorem C9_never_more_than_two_passengers (address_of : nat -> Z)
    (cost : state_t -> cost_t -> cost_t) (fuel : nat)
    (r : list (list state_t)) :
  solve address_of cost fuel = Some r ->
  forall p, In p r ->
  forall s, In s p -> (boat_t.passengers (boat s) <= 2)%Z.
Proof.
  unfold solve, check. simpl. unfold costSolver.
  destruct (cwaiting (snd (cost_run address_of (family_space cost) goal fuel)));
    [|discriminate].
  intros [= <-] p Hp s Hs.
  destruct (@cost_states _ _ _ _ address_of (family_space cost) goal
              (fun s => boat_t.capacity (boat s) = 2%Z
                        /\ (boat_t.passengers (boat s) <= 2)%Z))
    with (n := fuel) as [Hres _].
  - simpl. intros s0 t [Hcap _] Hin Hvalid.
    apply transitions_capacity in Hin.
    apply river_crossing_valid_capacity in Hvalid.
    rewrite Hin, Hcap in *. split; [reflexivity | exact Hvalid].
  - simpl. split; [reflexivity | lia].
  - rewrite Forall_forall in Hres. specialize (Hres p Hp).
    rewrite Forall_forall in Hres. apply (Hres s Hs).
Qed.

Lemma C9_never_more_than_two_passengers_witness :
  exists r,
    solve ascending depth_cost 2000 = Some r
    /\ length r = 7
    /\ forall p, In p r ->
       forall s, In s p -> (boat_t.passengers (boat s) <= 2)%Z.
Proof.
  destruct (solve ascending depth_cost 2000) as [r|] eqn:Hsolve.
  - exists r. split; [reflexivity|]. split.
    + revert Hsolve. vm_compute. intros [= <-]. reflexivity.
    + exact (C9_never_more_than_two_passengers ascending depth_cost 2000
               Hsolve).
  - revert Hsolve. vm_compute. discriminate.
Defined.

(** ** Further properties of the two solvers *)

Section Soundness.

Context {StateT CostT : Type}.
Context {state_equal : Equal StateT} {cost_less : Less CostT}.
Variable address_of : nat -> Z.
Variable ss : state_space_t StateT CostT.
Variable isGoalState : StateT -> bool.

(** X1.  Whatever the search order, the costs and the addresses, every
    state of every entry of the result set and every state that is expanded
    is reachable from the initial state by transitions that the generator
    yields and whose results the invariant accepts. *)
Theorem search_stays_in_reachable_states (order : search_order) (n : nat) :
  (Forall (Forall (reachable ss))
          (result (snd (solver_run ss isGoalState order n)))
   /\ Forall (reachable ss)
        (expansions (@self StateT)
           (fst (solver_run ss isGoalState order n))))
  /\ (Forall (Forall (reachable ss))
             (cresult (snd (cost_run address_of ss isGoalState n)))
      /\ Forall (reachable ss)
           (expansions (fun x : queued StateT CostT => self (second x))
              (fst (cost_run address_of ss isGoalState n)))).
Proof.
  assert (Hstep : forall s t, reachable ss s ->
                    In t (_transitionFunction ss s) ->
                    _invariantFunction ss (t s) = true ->
                    reachable ss (t s)).
  { intros s t Hs Hin Hinv. apply reachable_step with (a := s); [exact Hs|].
    exists t. auto. }
  split.
  - destruct (@solver_states _ _ _ ss isGoalState order (reachable ss) Hstep n
                (reachable_initial ss)) as [Hres Hlog].
    split; [exact Hres|]. unfold expansions. apply Forall_forall.
    intros s Hs. apply in_map_iff in Hs. destruct Hs as (i & <- & Hi).
    apply filter_In in Hi. rewrite Forall_forall in Hlog.
    specialize (Hlog i (proj1 Hi)). rewrite Forall_forall in Hlog.
    apply Hlog, chain_last.
  - destruct (@cost_states _ _ _ _ address_of ss isGoalState (reachable ss)
                Hstep n (reachable_initial ss)) as [Hres Hlog].
    split; [exact Hres|]. unfold expansions. apply Forall_forall.
    intros s Hs. apply in_map_iff in Hs. destruct Hs as (i & <- & Hi).
    apply filter_In in Hi. rewrite Forall_forall in Hlog.
    specialize (Hlog i (proj1 Hi)). rewrite Forall_forall in Hlog.
    apply Hlog, chain_last.
Qed.

(** X2.  When no reachable state satisfies the goal predicate, the result
    set is empty after any number of iterations of either solver, so
    [check] returns the empty result set whenever it returns. *)
Theorem no_reachable_goal_no_result (order : search_order) (fuel : nat) :
  (forall s, reachable ss s -> isGoalState s = false) ->
  result (snd (solver_run ss isGoalState order fuel)) = []
  /\ cresult (snd (cost_run address_of ss isGoalState fuel)) = []
  /\ forall r, check address_of ss isGoalState order fuel = Some r -> r = [].
Proof.
  intros Hnone.
  assert (Hstep : forall n r t,
             Forall (reachable ss) (chain n) ->
             r = n \/ (exists s rest, chain n = s :: rest
                                      /\ r = mk_trace None s) ->
             In t (_transitionFunction ss (self n)) ->
             _invariantFunction ss (t (self n)) = true ->
             Forall (reachable ss) (chain (mk_trace (Some r) (t (self n))))).
  { intros n r t Hn Hr Hin Hinv. simpl. apply Forall_app. split.
    - destruct Hr as [->|(s & rest & Hch & ->)]; [exact Hn|].
      rewrite Hch in Hn. simpl. constructor; [|constructor].
      now inversion Hn.
    - constructor; [|constructor].
      apply reachable_step with (a := self n).
      + rewrite Forall_forall in Hn. apply Hn, chain_last.
      + exists t. auto. }
  assert (Hs : result (snd (solver_run ss isGoalState order fuel)) = []).
  { apply (@iterate_invariant _ _ (solver_body ss isGoalState order)
             (fun v => Forall (fun n => Forall (reachable ss) (chain n))
                              (waiting v) /\ result v = [])
             (fun _ => True)).
    - intros v v' i [Hw Hr] Hb. split; [|exact I].
      destruct (@solver_frontier_step _ _ _ ss isGoalState order
                  (fun n => Forall (reachable ss) (chain n)) Hstep v v' i
                  Hw Hb) as [Hw' Hp].
      split; [exact Hw'|].
      destruct (solver_body_some _ _ _ _ Hb)
        as (w1 & s & rest & _ & _ & _ & _ & _ & _ & _ & ->).
      rewrite Hnone; [exact Hr|].
      rewrite Forall_forall in Hp. apply Hp, chain_last.
    - simpl. split; [|reflexivity]. repeat constructor. }
  assert (Hc : cresult (snd (cost_run address_of ss isGoalState fuel)) = []).
  { apply (@iterate_invariant _ _ (cost_body address_of ss isGoalState)
             (fun v => Forall (fun x => Forall (reachable ss)
                                          (chain (second x)))
                              (cwaiting v) /\ cresult v = [])
             (fun _ => True)).
    - intros v v' i [Hw Hr] Hb. split; [|exact I].
      destruct (@cost_frontier_step _ _ _ _ address_of ss isGoalState
                  (fun n => Forall (reachable ss) (chain n)) Hstep v v' i
                  Hw Hb) as [Hw' Hp].
      split; [exact Hw'|].
      destruct (cost_body_some _ _ _ _ Hb)
        as (w1 & s & rest & _ & _ & _ & _ & _ & _ & _ & ->).
      rewrite Hnone; [exact Hr|].
      rewrite Forall_forall in Hp. apply Hp, chain_last.
    - simpl. split; [|reflexivity]. repeat constructor. }
  split; [exact Hs|]. split; [exact Hc|].
  intros r. unfold check, costSolver, solver. rewrite Hs, Hc.
  destruct (_useCost ss).
  - destruct (cwaiting _); [|discriminate]. now intros [= <-].
  - destruct (waiting _); [|discriminate]. now intros [= <-].
Qed.

End Soundness.

Lemma no_reachable_goal_no_result_witness :
  result (snd (solver_run line (fun _ => false) breadth_first 4)) = []
  /\ cresult (snd (cost_run ascending line (fun _ => false) 4)) = []
  /\ forall r,
       check ascending line (fun _ => false) breadth_first 4 = Some r ->
       r = [].
Proof.
  apply (@no_reachable_goal_no_result nat nat _ _ ascending line
           (fun _ => false) breadth_first 4).
  intros s _. reflexivity.
Defined.

Section ChainFacts.

Context {StateT CostT : Type}.
Variable ss : state_space_t StateT CostT.

Lemma chain_not_nil (n : trace_state StateT) : chain n <> [].
Proof.
  destruct n as [[p|] s]; simpl; [|discriminate].
  intros H. apply app_eq_nil in H. destruct H as [_ H]. discriminate.
Qed.

Lemma chain_last_state (n : trace_state StateT) (d : StateT) :
  last (chain n) d = self n.
Proof. destruct n as [[p|] s]; simpl; [apply last_last | reflexivity]. Qed.

Lemma last_cons_default {A : Type} (l : list A) :
  forall x a b, last (x :: l) a = last (x :: l) b.
Proof.
  induction l as [|y l IH]; intros x a b; [reflexivity|].
  change (last (y :: l) a = last (y :: l) b). apply IH.
Qed.

Lemma linked_snoc (l : list StateT) :
  forall a b,
    linked ss a l -> valid_step ss (last l a) b -> linked ss a (l ++ [b]).
Proof.
  induction l as [|x l IH]; intros a b Hl Hb; simpl in *.
  - auto.
  - destruct Hl as [Hx Hl]. split; [exact Hx|]. apply IH; [exact Hl|].
    destruct l as [|y l]; [exact Hb|].
    rewrite (last_cons_default l y x a). exact Hb.
Qed.

Lemma genuine_path_snoc (l : list StateT) (d b : StateT) :
  genuine_path ss l -> valid_step ss (last l d) b ->
  genuine_path ss (l ++ [b]).
Proof.
  destruct l as [|a l]; simpl; [tauto|]. intros [Ha Hl] Hb.
  split; [exact Ha|]. apply linked_snoc; [exact Hl|].
  destruct l as [|y l]; [exact Hb|].
  rewrite (last_cons_default l y a d). exact Hb.
Qed.

(** The nodes that an expansion with the popped node as parent pushes have
    genuine chains when the popped node has one. *)
Lemma children_genuine (n : trace_state StateT) (t : StateT -> StateT) :
  genuine_path ss (chain n) ->
  In t (_transitionFunction ss (self n)) ->
  _invariantFunction ss (t (self n)) = true ->
  genuine_path ss (chain (mk_trace (Some n) (t (self n)))).
Proof.
  intros Hn Hin Hinv. simpl.
  apply genuine_path_snoc with (d := self n); [exact Hn|].
  rewrite chain_last_state. exists t. auto.
Qed.

Lemma each_extends_snoc {A : Type} (r : list (list A)) :
  forall prev q,
    each_extends prev r ->
    (exists ext, ext <> [] /\ q = last r prev ++ ext) ->
    each_extends prev (r ++ [q]).
Proof.
  induction r as [|p r IH]; intros prev q Hr Hq; simpl in *.
  - auto.
  - destruct Hr as [Hp Hr]. split; [exact Hp|]. apply IH; [exact Hr|].
    destruct r as [|y r]; [exact Hq|].
    rewrite (last_cons_default r y p prev). exact Hq.
Qed.

End ChainFacts.

Section FirstPath.

Context {StateT CostT : Type}.
Context {state_equal : Equal StateT} {cost_less : Less CostT}.
Variable address_of : nat -> Z.
Variable ss : state_space_t StateT CostT.
Variable isGoalState : StateT -> bool.

(** The first entry of the result set of [solver] is a genuine path to a goal
    state. *)
Lemma solver_first_entry_genuine (order : search_order) (n : nat)
    (p : list StateT) (rest : list (list StateT)) :
  result (snd (solver_run ss isGoalState order n)) = p :: rest ->
  genuine_path ss p /\ isGoalState (last p (_initialState ss)) = true.
Proof.
  revert p rest.
  apply (@iterate_invariant _ _ (solver_body ss isGoalState order)
           (fun v =>
              (result v = [] ->
               traces v = [] /\ containedSolution v = []
               /\ Forall (fun n => genuine_path ss (chain n)) (waiting v))
              /\ forall p rest, result v = p :: rest ->
                   genuine_path ss p
                   /\ isGoalState (last p (_initialState ss)) = true)
           (fun _ => True)).
  + intros v v' i [Hempty Hfirst] Hb. split; [|exact I].
    destruct (solver_body_some _ _ _ _ Hb)
      as (w1 & s & rest & Ht & Hc & _ & _ & Hw' & Ht' & Hc' & Hr').
    destruct (take_some _ _ Ht) as [Hin Hincl].
    destruct (result v) as [|p0 r0] eqn:Hres.
    * destruct (Hempty eq_refl) as (Htr & Hcs & Hw).
      rewrite Forall_forall in Hw.
      destruct (isGoalState (self (popped i))) eqn:Hg.
      -- split; [rewrite Hr'; discriminate|].
         intros p rest'. rewrite Hr', Htr, Hcs, app_nil_r. simpl.
         intros [= <- <-]. split; [auto|].
         now rewrite chain_last_state.
      -- split; [|rewrite Hr'; discriminate].
         intros _. rewrite Ht', Hc'. repeat split; auto.
         rewrite Hw'. apply Forall_forall.
         destruct (expanded i); [|auto].
         match goal with
         | |- context [push_successors ss ?c ?r ?ts w1] =>
             destruct (push_successors_app ss c r ts w1)
               as (new & -> & Hnew)
         end.
         intros x Hx. apply in_app_or in Hx.
         destruct Hx as [Hx|Hx]; [auto|].
         destruct (Hnew x Hx) as (t & Hin' & Hinv & ->).
         apply children_genuine; auto.
    * split; [rewrite Hr'; destruct (isGoalState _); discriminate|].
      intros p rest'. rewrite Hr'.
      destruct (isGoalState (self (popped i))); simpl;
        intros [= <- _]; apply (Hfirst p0 r0 eq_refl).
  + simpl. split; [|discriminate]. intros _. repeat split.
    repeat constructor.
Qed.

(** So is the first entry of the result set of [costSolver]. *)
Lemma cost_first_entry_genuine (n : nat)
    (p : list StateT) (rest : list (list StateT)) :
  cresult (snd (cost_run address_of ss isGoalState n)) = p :: rest ->
  genuine_path ss p /\ isGoalState (last p (_initialState ss)) = true.
Proof.
  revert p rest.
  apply (@iterate_invariant _ _ (cost_body address_of ss isGoalState)
           (fun v =>
              (cresult v = [] ->
               solution v = [] /\ ccontainedSolution v = []
               /\ Forall (fun x => genuine_path ss (chain (second x)))
                         (cwaiting v))
              /\ forall p rest, cresult v = p :: rest ->
                   genuine_path ss p
                   /\ isGoalState (last p (_initialState ss)) = true)
           (fun _ => True)).
  + intros v v' i [Hempty Hfirst] Hb. split; [|exact I].
    destruct (cost_body_some _ _ _ _ Hb)
      as (w1 & s & rest & Ht & Hc & _ & _ & Hw' & Ht' & Hc' & Hr').
    destruct (pop_top_some _ Ht) as [Hin Hincl].
    destruct (cresult v) as [|p0 r0] eqn:Hres.
    * destruct (Hempty eq_refl) as (Htr & Hcs & Hw).
      rewrite Forall_forall in Hw.
      destruct (isGoalState (self (second (popped i)))) eqn:Hg.
      -- split; [rewrite Hr'; discriminate|].
         intros p rest'. rewrite Hr', Htr, Hcs, app_nil_r. simpl.
         intros [= <- <-]. split; [auto|].
         now rewrite chain_last_state.
      -- split; [|rewrite Hr'; discriminate].
         intros _. rewrite Ht', Hc'. repeat split; auto.
         rewrite Hw'. apply Forall_forall.
         destruct (expanded i); [|auto].
         match goal with
         | |- context [push_cost_successors _ _ ?c ?k ?r ?ts w1 ?a] =>
             destruct (push_cost_successors_app address_of ss c k r ts w1 a)
               as (new & -> & Hnew)
         end.
         intros x Hx. apply in_app_or in Hx.
         destruct Hx as [Hx|Hx]; [auto|].
         destruct (Hnew x Hx) as (t & Hin' & Hinv & -> & _).
         apply children_genuine; auto.
    * split; [rewrite Hr'; destruct (isGoalState _); discriminate|].
      intros p rest'. rewrite Hr'.
      destruct (isGoalState (self (second (popped i)))); simpl;
        intros [= <- _]; apply (Hfirst p0 r0 eq_refl).
  + simpl. split; [|discriminate]. intros _. repeat split.
    repeat constructor.
Qed.

(** X3.  In either solver and at any point of the search, the first entry
    of the result set, if there is one, is a sequence of valid steps from
    the initial state whose last state satisfies the goal predicate. *)
Theorem first_entry_is_a_genuine_path (order : search_order) (n : nat) :
  (forall p rest,
     result (snd (solver_run ss isGoalState order n)) = p :: rest ->
     genuine_path ss p /\ isGoalState (last p (_initialState ss)) = true)
  /\ (forall p rest,
        cresult (snd (cost_run address_of ss isGoalState n)) = p :: rest ->
        genuine_path ss p /\ isGoalState (last p (_initialState ss)) = true).
Proof.
  split.
  - intros p rest Hres. eapply solver_first_entry_genuine. exact Hres.
  - intros p rest Hres. eapply cost_first_entry_genuine. exact Hres.
Qed.

(** X4.  In either solver, every entry of the result set is the entry
    before it followed by at least one more state (the first entry is not
    empty): what a goal pop appends is all that was appended before
    together with the new chain. *)
Theorem every_entry_extends_the_one_before (order : search_order) (n : nat) :
  each_extends [] (result (snd (solver_run ss isGoalState order n)))
  /\ each_extends [] (cresult (snd (cost_run address_of ss isGoalState n))).
Proof.
  split.
  - apply (@iterate_invariant _ _ (solver_body ss isGoalState order)
             (fun v => each_extends [] (result v)
                       /\ last (result v) [] = containedSolution v)
             (fun _ => True)).
    + intros v v' i [Hext Hlast] Hb. split; [|exact I].
      destruct (solver_body_some _ _ _ _ Hb)
        as (w1 & s & rest & _ & Hc & _ & _ & _ & _ & -> & ->).
      destruct (isGoalState (self (popped i))); [|auto].
      split; [|apply last_last].
      apply each_extends_snoc; [exact Hext|]. rewrite Hlast.
      eexists. split; [|reflexivity]. rewrite Hc. discriminate.
    + simpl. auto.
  - apply (@iterate_invariant _ _ (cost_body address_of ss isGoalState)
             (fun v => each_extends [] (cresult v)
                       /\ last (cresult v) [] = ccontainedSolution v)
             (fun _ => True)).
    + intros v v' i [Hext Hlast] Hb. split; [|exact I].
      destruct (cost_body_some _ _ _ _ Hb)
        as (w1 & s & rest & _ & Hc & _ & _ & _ & _ & -> & ->).
      destruct (isGoalState (self (second (popped i)))); [|auto].
      split; [|apply last_last].
      apply each_extends_snoc; [exact Hext|]. rewrite Hlast.
      eexists. split; [|reflexivity]. rewrite Hc. discriminate.
    + simpl. auto.
Qed.

End FirstPath.

Lemma first_entry_is_a_genuine_path_witness :
  genuine_path line [0; 1] /\ positive (last [0; 1] 0) = true.
Proof.
  destruct (@first_entry_is_a_genuine_path nat nat _ _ ascending line positive
              breadth_first 3) as [Hs _].
  apply (Hs [0; 1] [[0; 1; 0; 2; 0; 1]]). reflexivity.
Defined.

(** ** Termination on a finite state space *)

Section Measure.

Context {V X : Type}.
Variable body : V -> option (iteration X * V).
Variable size : V -> nat.
Variable pushes : iteration X -> nat.

Hypothesis body_size : forall v v' i,
  body v = Some (i, v') -> size v' + 1 <= size v + pushes i.

Lemma iterate_size (n : nat) :
  forall v,
    size (snd (iterate body n v)) + length (fst (iterate body n v))
    <= size v + list_sum (map pushes (fst (iterate body n v))).
Proof.
  induction n as [|n IH]; intros v.
  - simpl. lia.
  - rewrite iterate_S. destruct (body v) as [[i v']|] eqn:Hb; simpl.
    + specialize (IH v'). pose proof (body_size Hb). lia.
    + lia.
Qed.

Lemma iterate_length_le (n : nat) :
  forall v, length (fst (iterate body n v)) <= n.
Proof.
  induction n as [|n IH]; intros v; [simpl; lia|].
  rewrite iterate_S. destruct (body v) as [[i v']|]; simpl; [|lia].
  specialize (IH v'). lia.
Qed.

(** A loop that performed fewer iterations than it was allowed has met its
    exit condition. *)
Lemma iterate_stops (n : nat) :
  forall v,
    length (fst (iterate body n v)) < n ->
    body (snd (iterate body n v)) = None.
Proof.
  induction n as [|n IH]; intros v; [simpl; lia|].
  rewrite iterate_S. destruct (body v) as [[i v']|] eqn:Hb; simpl.
  - intros Hlt. apply IH. lia.
  - intros _. exact Hb.
Qed.

End Measure.

Section Counting.

Context {StateT CostT : Type}.
Context {state_equal : Equal StateT} {cost_less : Less CostT}.
Variable address_of : nat -> Z.
Variable ss : state_space_t StateT CostT.

Lemma take_length (order : search_order) (w w1 : list (trace_state StateT))
    (n : trace_state StateT) :
  take order w = Some (n, w1) -> length w = S (length w1).
Proof.
  destruct order; simpl.
  - destruct w; [discriminate|]. now intros [= <- <-].
  - destruct (rev w) as [|x r] eqn:Hr; [discriminate|]. intros [= <- <-].
    rewrite <- (length_rev w), Hr, length_rev. reflexivity.
Qed.

Lemma pop_top_length (w w1 : list (queued StateT CostT))
    (m : queued StateT CostT) :
  pop_top w = Some (m, w1) -> length w = S (length w1).
Proof.
  revert m w1. induction w as [|x rest IH]; intros m w1; simpl; [discriminate|].
  destruct (pop_top rest) as [[m0 others]|] eqn:Hrest.
  - specialize (IH _ _ eq_refl).
    destruct (pair_less m0 x); intros [= <- <-]; simpl; lia.
  - apply pop_top_none in Hrest. subst rest. now intros [= <- <-].
Qed.

(** The successors enter the unordered frontier at its back, in the order in
    which the generator yields their transitions. *)
Lemma push_successors_filter (currentState : StateT)
    (traceState : trace_state StateT) (transitions : list (StateT -> StateT)) :
  forall w,
    push_successors ss currentState traceState transitions w
    = w ++ map (fun t => mk_trace (Some traceState) (t currentState))
             (filter (fun t => _invariantFunction ss (t currentState))
                     transitions).
Proof.
  unfold push_successors.
  induction transitions as [|t ts IH]; intros w; simpl.
  - now rewrite app_nil_r.
  - destruct (_invariantFunction ss (t currentState)); simpl.
    + rewrite IH, <- app_assoc. reflexivity.
    + apply IH.
Qed.

Lemma push_cost_successors_filter (currentState : StateT)
    (currentCost : CostT) (traceState : trace_state StateT)
    (transitions : list (StateT -> StateT)) :
  forall w k,
    map (@second StateT CostT)
      (fst (push_cost_successors address_of ss currentState currentCost
              traceState transitions w k))
    = map (@second StateT CostT) w
      ++ map (fun t => mk_trace (Some traceState) (t currentState))
           (filter (fun t => _invariantFunction ss (t currentState))
                   transitions).
Proof.
  unfold push_cost_successors.
  induction transitions as [|t ts IH]; intros w k; simpl.
  - now rewrite app_nil_r.
  - destruct (_invariantFunction ss (t currentState)); simpl.
    + rewrite IH, map_app, <- app_assoc. reflexivity.
    + apply IH.
Qed.

Lemma filter_length_le {A : Type} (f : A -> bool) (l : list A) :
  length (filter f l) <= length l.
Proof.
  induction l as [|a l IH]; simpl; [lia|]. destruct (f a); simpl; lia.
Qed.

End Counting.

Section Termination.

Context {StateT CostT : Type}.
Context {state_equal : Equal StateT} {cost_less : Less CostT}.
Variable address_of : nat -> Z.
Variable ss : state_space_t StateT CostT.
Variable isGoalState : StateT -> bool.

(** The visited list is the list of the expanded states, and no state of it
    is [==] to a later one. *)
Lemma solver_passed_expansions (order : search_order) (n : nat) :
  passed (snd (solver_run ss isGoalState order n))
  = expansions (@self StateT) (fst (solver_run ss isGoalState order n))
  /\ distinct_states (passed (snd (solver_run ss isGoalState order n))).
Proof.
  split.
  - rewrite expansions_flat_map. unfold solver_run.
    rewrite (@iterate_accumulates _ _ _ (solver_body ss isGoalState order)
               (@passed StateT)
               (fun i => if expanded i then [self (popped i)] else []));
      [reflexivity|].
    intros v v' i Hb.
    destruct (solver_body_some _ _ _ _ Hb)
      as (w1 & s & rest & _ & _ & _ & -> & _).
    destruct (expanded i); [reflexivity | now rewrite app_nil_r].
  - apply (@iterate_invariant _ _ (solver_body ss isGoalState order)
             (fun v => distinct_states (passed v)) (fun _ => True)).
    + intros v v' i Hv Hb. split; [|exact I].
      destruct (solver_body_some _ _ _ _ Hb)
        as (w1 & s & rest & _ & _ & He & -> & _).
      destruct (expanded i); [|exact Hv].
      apply distinct_states_snoc; [exact Hv|].
      symmetry in He. now apply negb_true_iff in He.
    + constructor.
Qed.

Lemma cost_passed_expansions (n : nat) :
  cpassed (snd (cost_run address_of ss isGoalState n))
  = expansions (fun x : queued StateT CostT => self (second x))
      (fst (cost_run address_of ss isGoalState n))
  /\ distinct_states (cpassed (snd (cost_run address_of ss isGoalState n))).
Proof.
  split.
  - rewrite expansions_flat_map. unfold cost_run.
    rewrite (@iterate_accumulates _ _ _ (cost_body address_of ss isGoalState)
               (@cpassed StateT CostT)
               (fun i => if expanded i then [self (second (popped i))]
                         else []));
      [reflexivity|].
    intros v v' i Hb.
    destruct (cost_body_some _ _ _ _ Hb)
      as (w1 & s & rest & _ & _ & _ & -> & _).
    destruct (expanded i); [reflexivity | now rewrite app_nil_r].
  - apply (@iterate_invariant _ _ (cost_body address_of ss isGoalState)
             (fun v => distinct_states (cpassed v)) (fun _ => True)).
    + intros v v' i Hv Hb. split; [|exact I].
      destruct (cost_body_some _ _ _ _ Hb)
        as (w1 & s & rest & _ & _ & He & -> & _).
      destruct (expanded i); [|exact Hv].
      apply distinct_states_snoc; [exact Hv|].
      symmetry in He. now apply negb_true_iff in He.
    + constructor.
Qed.

Hypothesis equal_refl : forall a : StateT, equal a a = true.

Lemma distinct_states_NoDup (l : list StateT) : distinct_states l -> NoDup l.
Proof.
  unfold distinct_states. induction 1 as [|a l Ha _ IH]; constructor; auto.
  intros Hin. rewrite Forall_forall in Ha. specialize (Ha a Hin).
  rewrite equal_refl in Ha. discriminate.
Qed.

Variable universe : list StateT.
Variable bound : nat.

Hypothesis universe_initial : In (_initialState ss) universe.
Hypothesis universe_closed : forall s t,
  In s universe -> In t (_transitionFunction ss s) ->
  _invariantFunction ss (t s) = true -> In (t s) universe.
Hypothesis universe_bound : forall s,
  In s universe -> length (_transitionFunction ss s) <= bound.

Lemma pushes_bounded {X : Type} (state_of : X -> StateT)
    (log : list (iteration X)) :
  Forall (fun i => In (state_of (popped i)) universe) log ->
  list_sum
    (map (fun i => if expanded i
                   then length (_transitionFunction ss (state_of (popped i)))
                   else 0) log)
  <= bound * length (expansions state_of log).
Proof.
  unfold expansions. induction 1 as [|i log Hi _ IH]; simpl; [lia|].
  destruct (expanded i); simpl; [|exact IH].
  pose proof (universe_bound _ Hi). lia.
Qed.

Lemma expansions_in_universe {X : Type} (state_of : X -> StateT)
    (log : list (iteration X)) :
  Forall (fun i => In (state_of (popped i)) universe) log ->
  incl (expansions state_of log) universe.
Proof.
  intros Hlog s Hs. unfold expansions in Hs. apply in_map_iff in Hs.
  destruct Hs as (i & <- & Hi). apply filter_In in Hi.
  rewrite Forall_forall in Hlog. apply Hlog, Hi.
Qed.

(** [costSolver] returns once it is allowed as many iterations as one and
    the transitions of all the states together. *)
Lemma cost_terminates (fuel : nat) :
  1 + bound * length universe <= fuel ->
  exists r, costSolver address_of ss isGoalState fuel = Some r.
Proof.
  intros Hfuel.
  destruct (@cost_states _ _ _ _ address_of ss isGoalState
              (fun s => In s universe) universe_closed fuel
              universe_initial) as [_ Hlog].
  assert (Hin : Forall (fun i : iteration (queued StateT CostT) =>
                          In (self (second (popped i))) universe)
                       (fst (cost_run address_of ss isGoalState fuel))).
  { eapply Forall_impl; [|exact Hlog]. intros i Hi.
    rewrite Forall_forall in Hi. apply Hi, chain_last. }
  destruct (cost_passed_expansions fuel) as [Hpassed Hdistinct].
  rewrite Hpassed in Hdistinct. apply distinct_states_NoDup in Hdistinct.
  pose proof (NoDup_incl_length Hdistinct
                (expansions_in_universe _ Hin)) as Hlen.
  pose proof (pushes_bounded
                (fun x : queued StateT CostT => self (second x)) Hin)
    as Hsum.
  cbv beta in Hsum.
  assert (Hbody : forall v v' (i : iteration (queued StateT CostT)),
             cost_body address_of ss isGoalState v = Some (i, v') ->
             length (cwaiting v') + 1
             <= length (cwaiting v)
                + (if expanded i
                   then length (_transitionFunction ss
                                  (self (second (popped i))))
                   else 0)).
  { intros v v' i Hb.
    destruct (cost_body_some _ _ _ _ Hb)
      as (w1 & s & rest & Hpop & _ & _ & _ & -> & _).
    rewrite (pop_top_length _ Hpop).
    destruct (expanded i); [|lia].
    rewrite <- (length_map (@second StateT CostT)),
      push_cost_successors_filter, length_app, !length_map.
    match goal with
    | |- context [filter ?f ?l] => pose proof (filter_length_le f l)
    end. lia. }
  pose proof (iterate_size _ _ _ Hbody fuel (cost_init address_of ss))
    as Hsize.
  unfold cost_run in *.
  simpl in Hsize.
  assert (Hmul : bound * length
                    (expansions
                       (fun x : queued StateT CostT => self (second x))
                       (fst (iterate (cost_body address_of ss isGoalState)
                               fuel (cost_init address_of ss))))
                  <= bound * length universe)
    by (apply Nat.mul_le_mono_l; exact Hlen).
  pose proof (iterate_length_le (cost_body address_of ss isGoalState) fuel
                (cost_init address_of ss)) as Hle.
  assert (Hempty : cwaiting
                     (snd (iterate (cost_body address_of ss isGoalState)
                             fuel (cost_init address_of ss))) = []).
  { destruct (Nat.eq_dec
                (length (fst (iterate (cost_body address_of ss isGoalState)
                                fuel (cost_init address_of ss)))) fuel)
      as [Heq|Hne].
    - apply length_zero_iff_nil. lia.
    - assert (Hstop : cost_body address_of ss isGoalState
                        (snd (iterate (cost_body address_of ss isGoalState)
                                fuel (cost_init address_of ss))) = None)
        by (apply iterate_stops; lia).
      apply cost_body_none in Hstop. exact Hstop. }
  unfold costSolver, cost_run. rewrite Hempty. eauto.
Qed.

(** So does [solver]. *)
Lemma solver_terminates (order : search_order) (fuel : nat) :
  1 + bound * length universe <= fuel ->
  exists r, solver ss isGoalState order fuel = Some r.
Proof.
  intros Hfuel.
  destruct (@solver_states _ _ _ ss isGoalState order
              (fun s => In s universe) universe_closed fuel
              universe_initial) as [_ Hlog].
  assert (Hin : Forall (fun i : iteration (trace_state StateT) =>
                          In (self (popped i)) universe)
                       (fst (solver_run ss isGoalState order fuel))).
  { eapply Forall_impl; [|exact Hlog]. intros i Hi.
    rewrite Forall_forall in Hi. apply Hi, chain_last. }
  destruct (solver_passed_expansions order fuel) as [Hpassed Hdistinct].
  rewrite Hpassed in Hdistinct. apply distinct_states_NoDup in Hdistinct.
  pose proof (NoDup_incl_length Hdistinct
                (expansions_in_universe _ Hin)) as Hlen.
  pose proof (pushes_bounded (@self StateT) Hin) as Hsum.
  assert (Hbody : forall v v' (i : iteration (trace_state StateT)),
             solver_body ss isGoalState order v = Some (i, v') ->
             length (waiting v') + 1
             <= length (waiting v)
                + (if expanded i
                   then length (_transitionFunction ss (self (popped i)))
                   else 0)).
  { intros v v' i Hb.
    destruct (solver_body_some _ _ _ _ Hb)
      as (w1 & s & rest & Hpop & _ & _ & _ & -> & _).
    rewrite (take_length _ _ Hpop).
    destruct (expanded i); [|lia].
    rewrite push_successors_filter, length_app, length_map.
    match goal with
    | |- context [filter ?f ?l] => pose proof (filter_length_le f l)
    end. lia. }
  pose proof (iterate_size _ _ _ Hbody fuel (solver_init ss)) as Hsize.
  unfold solver_run in *.
  simpl in Hsize.
  assert (Hmul : bound * length
                    (expansions (@self StateT)
                       (fst (iterate (solver_body ss isGoalState order) fuel
                               (solver_init ss))))
                  <= bound * length universe)
    by (apply Nat.mul_le_mono_l; exact Hlen).
  pose proof (iterate_length_le (solver_body ss isGoalState order) fuel
                (solver_init ss)) as Hle.
  assert (Hempty : waiting
                     (snd (iterate (solver_body ss isGoalState order) fuel
                             (solver_init ss))) = []).
  { destruct (Nat.eq_dec
                (length (fst (iterate (solver_body ss isGoalState order)
                                fuel (solver_init ss)))) fuel)
      as [Heq|Hne].
    - apply length_zero_iff_nil. lia.
    - assert (Hstop : solver_body ss isGoalState order
                        (snd (iterate (solver_body ss isGoalState order)
                                fuel (solver_init ss))) = None)
        by (apply iterate_stops; lia).
      apply solver_body_none in Hstop. exact Hstop. }
  unfold solver, solver_run. rewrite Hempty. eauto.
Qed.

(** X5.  On a finite state space both solvers terminate.  When [==] holds
    of every state and itself, and a list of states holds the initial
    state, is closed under the valid steps and has at most [bound]
    transitions generated at each of its states, the search loop runs at
    most [1 + bound * length universe] times: [check] returns whenever it is
    allowed that many iterations or more. *)
Theorem finite_state_space_terminates (order : search_order) (fuel : nat) :
  1 + bound * length universe <= fuel ->
  exists r, check address_of ss isGoalState order fuel = Some r.
Proof.
  intros Hfuel. unfold check. destruct (_useCost ss).
  - apply cost_terminates, Hfuel.
  - apply solver_terminates, Hfuel.
Qed.

End Termination.

(** ** Exhaustiveness *)

Section Exhaustive.

Context {StateT CostT : Type}.
Context {state_equal : Equal StateT} {cost_less : Less CostT}.
Variable address_of : nat -> Z.
Variable ss : state_space_t StateT CostT.
Variable isGoalState : StateT -> bool.

Lemma take_cover (order : search_order) (w w1 : list (trace_state StateT))
    (n : trace_state StateT) :
  take order w = Some (n, w1) -> forall x, In x w -> x = n \/ In x w1.
Proof.
  destruct order; simpl.
  - destruct w; [discriminate|]. intros [= <- <-] x [Hx|Hx]; auto.
  - destruct (rev w) as [|y r] eqn:Hr; [discriminate|]. intros [= <- <-] x Hx.
    apply in_rev in Hx. rewrite Hr in Hx. destruct Hx as [Hx|Hx]; auto.
    right. now apply in_rev in Hx.
Qed.

Lemma pop_top_cover (w w1 : list (queued StateT CostT))
    (m : queued StateT CostT) :
  pop_top w = Some (m, w1) -> forall x, In x w -> x = m \/ In x w1.
Proof.
  revert m w1. induction w as [|y rest IH]; intros m w1; simpl; [discriminate|].
  destruct (pop_top rest) as [[m0 others]|] eqn:Hrest.
  - specialize (IH _ _ eq_refl).
    destruct (pair_less m0 y); intros [= <- <-] x [Hx|Hx]; simpl; auto;
      destruct (IH x Hx); auto.
  - apply pop_top_none in Hrest. subst rest.
    intros [= <- <-] x [Hx|[]]. auto.
Qed.

(** The result set has one entry for each pop of a goal state. *)
Lemma solver_result_length (order : search_order) (n : nat) :
  length (result (snd (solver_run ss isGoalState order n)))
  = length (goal_pops isGoalState (@self StateT)
              (fst (solver_run ss isGoalState order n))).
Proof.
  destruct (@iterate_reports _ _ _ (solver_body ss isGoalState order)
              (@result StateT) (fun i => isGoalState (self (popped i)))
              (fun _ _ => True))
    with (n := n) (v := solver_init ss) as (new & Hres & Hnew).
  - intros v v' i Hb.
    destruct (solver_body_some _ _ _ _ Hb)
      as (w1 & s & rest & _ & _ & _ & _ & _ & _ & _ & ->).
    destruct (isGoalState (self (popped i))); eauto.
  - unfold solver_run, goal_pops. rewrite Hres. simpl.
    symmetry. apply (Forall2_length Hnew).
Qed.

Lemma cost_result_length (n : nat) :
  length (cresult (snd (cost_run address_of ss isGoalState n)))
  = length (goal_pops isGoalState
              (fun x : queued StateT CostT => self (second x))
              (fst (cost_run address_of ss isGoalState n))).
Proof.
  destruct (@iterate_reports _ _ _ (cost_body address_of ss isGoalState)
              (@cresult StateT CostT)
              (fun i => isGoalState (self (second (popped i))))
              (fun _ _ => True))
    with (n := n) (v := cost_init address_of ss) as (new & Hres & Hnew).
  - intros v v' i Hb.
    destruct (cost_body_some _ _ _ _ Hb)
      as (w1 & s & rest & _ & _ & _ & _ & _ & _ & _ & ->).
    destruct (isGoalState (self (second (popped i)))); eauto.
  - unfold cost_run, goal_pops. rewrite Hres. simpl.
    symmetry. apply (Forall2_length Hnew).
Qed.

Lemma goal_expansion_reported {X : Type} (state_of : X -> StateT)
    (log : list (iteration X)) (s : StateT) :
  In s (expansions state_of log) -> isGoalState s = true ->
  goal_pops isGoalState state_of log <> [].
Proof.
  unfold expansions, goal_pops. intros Hs Hg Hnil.
  apply in_map_iff in Hs. destruct Hs as (i & <- & Hi).
  apply filter_In in Hi.
  assert (Hin : In i (filter (fun i => isGoalState (state_of (popped i)))
                        log))
    by (apply filter_In; split; [apply Hi | exact Hg]).
  rewrite Hnil in Hin. exact Hin.
Qed.

Hypothesis equal_spec : forall a b : StateT, equal a b = true <-> a = b.

Lemma find_In (l : list StateT) (x : StateT) : find l x = true <-> In x l.
Proof.
  unfold find. rewrite existsb_exists. split.
  - intros (y & Hy & He). apply equal_spec in He. now subst.
  - intros Hx. exists x. split; [exact Hx | now apply equal_spec].
Qed.

(** The visited list holds the initial state and every valid step out of a
    visited state, as far as the frontier does not; an iteration keeps it
    so. *)
Lemma solver_closure_step (order : search_order) (v v' : solver_vars StateT)
    (i : iteration (trace_state StateT)) :
  (In (_initialState ss) (passed v)
   \/ In (_initialState ss) (map (@self StateT) (waiting v)))
  /\ (forall s s', In s (passed v) -> valid_step ss s s' ->
        In s' (passed v) \/ In s' (map (@self StateT) (waiting v))) ->
  solver_body ss isGoalState order v = Some (i, v') ->
  (In (_initialState ss) (passed v')
   \/ In (_initialState ss) (map (@self StateT) (waiting v')))
  /\ (forall s s', In s (passed v') -> valid_step ss s s' ->
        In s' (passed v') \/ In s' (map (@self StateT) (waiting v'))).
Proof.
  intros [Hinit Hclosed] Hb.
  destruct (solver_body_some _ _ _ _ Hb)
    as (w1 & s0 & rest & Ht & _ & He & Hp' & Hw' & _).
  rewrite push_successors_filter in Hw'.
  assert (Hpopped : In (self (popped i)) (passed v')).
  { rewrite Hp'. destruct (expanded i).
    - apply in_or_app. right. left. reflexivity.
    - symmetry in He. apply negb_false_iff in He. now apply find_In. }
  assert (Hold : forall x, In x (passed v) -> In x (passed v')).
  { intros x Hx. rewrite Hp'. destruct (expanded i); [|exact Hx].
    apply in_or_app. now left. }
  assert (Hrest : forall x, In x (map (@self StateT) w1) ->
                            In x (map (@self StateT) (waiting v'))).
  { intros x Hx. rewrite Hw'. destruct (expanded i); [|exact Hx].
    rewrite map_app. apply in_or_app. now left. }
  assert (Hkeep : forall x,
             In x (passed v) \/ In x (map (@self StateT) (waiting v)) ->
             In x (passed v') \/ In x (map (@self StateT) (waiting v'))).
  { intros x [Hx|Hx]; [left; auto|].
    apply in_map_iff in Hx. destruct Hx as (m & <- & Hm).
    destruct (take_cover _ _ Ht _ Hm) as [->|Hm']; [left; exact Hpopped|].
    right. apply Hrest, in_map, Hm'. }
  split; [apply Hkeep, Hinit|].
  intros s s' Hs Hstep. rewrite Hp' in Hs.
  destruct (expanded i).
  - apply in_app_or in Hs. destruct Hs as [Hs|[<-|[]]].
    + apply Hkeep, (Hclosed s s' Hs Hstep).
    + right. rewrite Hw', map_app. apply in_or_app. right.
      destruct Hstep as (t & Hin & <- & Hinv).
      rewrite map_map. simpl. apply in_map_iff. exists t.
      split; [reflexivity|]. apply filter_In. auto.
  - apply Hkeep, (Hclosed s s' Hs Hstep).
Qed.

Lemma solver_closure (order : search_order) (n : nat) :
  let v := snd (solver_run ss isGoalState order n) in
  (In (_initialState ss) (passed v)
   \/ In (_initialState ss) (map (@self StateT) (waiting v)))
  /\ forall s s', In s (passed v) -> valid_step ss s s' ->
       In s' (passed v) \/ In s' (map (@self StateT) (waiting v)).
Proof.
  apply (@iterate_invariant _ _ (solver_body ss isGoalState order)
           (fun v =>
              (In (_initialState ss) (passed v)
               \/ In (_initialState ss) (map (@self StateT) (waiting v)))
              /\ forall s s', In s (passed v) -> valid_step ss s s' ->
                   In s' (passed v)
                   \/ In s' (map (@self StateT) (waiting v)))
           (fun _ => True)).
  - intros v v' i Hv Hb. split; [|exact I].
    eapply solver_closure_step; eassumption.
  - simpl. split; [right; left; reflexivity | intros s s' []].
Qed.

Lemma cost_closure (n : nat) :
  let v := snd (cost_run address_of ss isGoalState n) in
  (In (_initialState ss) (cpassed v)
   \/ In (_initialState ss)
        (map (fun x : queued StateT CostT => self (second x)) (cwaiting v)))
  /\ forall s s', In s (cpassed v) -> valid_step ss s s' ->
       In s' (cpassed v)
       \/ In s' (map (fun x : queued StateT CostT => self (second x))
                   (cwaiting v)).
Proof.
  apply (@iterate_invariant _ _ (cost_body address_of ss isGoalState)
           (fun v =>
              (In (_initialState ss) (cpassed v)
               \/ In (_initialState ss)
                    (map (fun x : queued StateT CostT => self (second x))
                       (cwaiting v)))
              /\ forall s s', In s (cpassed v) -> valid_step ss s s' ->
                   In s' (cpassed v)
                   \/ In s' (map (fun x : queued StateT CostT =>
                                    self (second x)) (cwaiting v)))
           (fun _ => True)).
  - intros v v' i [Hinit Hclosed] Hb. split; [|exact I].
    destruct (cost_body_some _ _ _ _ Hb)
      as (w1 & s0 & rest & Ht & _ & He & Hp' & Hw' & _).
    assert (Hpopped : In (self (second (popped i))) (cpassed v')).
    { rewrite Hp'. destruct (expanded i).
      - apply in_or_app. right. left. reflexivity.
      - symmetry in He. apply negb_false_iff in He. now apply find_In. }
    assert (Hold : forall x, In x (cpassed v) -> In x (cpassed v')).
    { intros x Hx. rewrite Hp'. destruct (expanded i); [|exact Hx].
      apply in_or_app. now left. }
    assert (Hstates : forall w : list (queued StateT CostT),
               map (fun x : queued StateT CostT => self (second x)) w
               = map (@self StateT) (map (@second StateT CostT) w))
      by (intros w; now rewrite map_map).
    assert (Hrest : forall x,
               In x (map (fun x : queued StateT CostT => self (second x)) w1)
               -> In x (map (fun x : queued StateT CostT => self (second x))
                          (cwaiting v'))).
    { intros x Hx. rewrite Hw'. destruct (expanded i); [|exact Hx].
      rewrite Hstates, push_cost_successors_filter, map_app.
      apply in_or_app. left. now rewrite <- Hstates. }
    assert (Hkeep : forall x,
               In x (cpassed v)
               \/ In x (map (fun x : queued StateT CostT => self (second x))
                          (cwaiting v)) ->
               In x (cpassed v')
               \/ In x (map (fun x : queued StateT CostT => self (second x))
                          (cwaiting v'))).
    { intros x [Hx|Hx]; [left; auto|].
      apply in_map_iff in Hx. destruct Hx as (m & <- & Hm).
      destruct (pop_top_cover _ Ht _ Hm) as [->|Hm']; [left; exact Hpopped|].
      right. apply Hrest.
      apply (in_map (fun x : queued StateT CostT => self (second x))), Hm'. }
    split; [apply Hkeep, Hinit|].
    intros s s' Hs Hstep. rewrite Hp' in Hs.
    destruct (expanded i).
    + apply in_app_or in Hs. destruct Hs as [Hs|[<-|[]]].
      * apply Hkeep, (Hclosed s s' Hs Hstep).
      * right. rewrite Hw', Hstates, push_cost_successors_filter, map_app.
        apply in_or_app. right.
        destruct Hstep as (t & Hin & <- & Hinv).
        rewrite map_map. simpl. apply in_map_iff. exists t.
        split; [reflexivity|]. apply filter_In. auto.
    + apply Hkeep, (Hclosed s s' Hs Hstep).
  - simpl. split; [right; left; reflexivity | intros s s' []].
Qed.

(** When [solver] returns, every reachable state has been expanded, and a
    reachable goal state has given an entry. *)
Lemma solver_exhaustive (order : search_order) (fuel : nat)
    (r : list (list StateT)) :
  solver ss isGoalState order fuel = Some r ->
  (forall s, reachable ss s ->
     In s (expansions (@self StateT)
             (fst (solver_run ss isGoalState order fuel))))
  /\ ((exists s, reachable ss s /\ isGoalState s = true) -> r <> []).
Proof.
  unfold solver. pose proof (solver_closure order fuel) as [Hinit Hclosed].
  destruct (solver_passed_expansions ss isGoalState order fuel)
    as [Hpassed _].
  destruct (waiting (snd (solver_run ss isGoalState order fuel)));
    [|discriminate].
  intros [= <-].
  assert (Hall : forall s, reachable ss s ->
             In s (expansions (@self StateT)
                     (fst (solver_run ss isGoalState order fuel)))).
  { rewrite <- Hpassed. induction 1 as [|a b _ IH Hstep].
    - destruct Hinit as [H|[]]. exact H.
    - destruct (Hclosed a b IH Hstep) as [H|[]]. exact H. }
  split; [exact Hall|]. intros (s & Hs & Hg) Hnil.
  apply (goal_expansion_reported _ _ (Hall s Hs) Hg).
  apply length_zero_iff_nil. rewrite <- solver_result_length, Hnil.
  reflexivity.
Qed.

(** So it is when [costSolver] returns. *)
Lemma cost_exhaustive (fuel : nat) (r : list (list StateT)) :
  costSolver address_of ss isGoalState fuel = Some r ->
  (forall s, reachable ss s ->
     In s (expansions (fun x : queued StateT CostT => self (second x))
             (fst (cost_run address_of ss isGoalState fuel))))
  /\ ((exists s, reachable ss s /\ isGoalState s = true) -> r <> []).
Proof.
  unfold costSolver. pose proof (cost_closure fuel) as [Hinit Hclosed].
  destruct (cost_passed_expansions address_of ss isGoalState fuel)
    as [Hpassed _].
  destruct (cwaiting (snd (cost_run address_of ss isGoalState fuel)));
    [|discriminate].
  intros [= <-].
  assert (Hall : forall s, reachable ss s ->
             In s (expansions
                     (fun x : queued StateT CostT => self (second x))
                     (fst (cost_run address_of ss isGoalState fuel)))).
  { rewrite <- Hpassed. induction 1 as [|a b _ IH Hstep].
    - destruct Hinit as [H|[]]. exact H.
    - destruct (Hclosed a b IH Hstep) as [H|[]]. exact H. }
  split; [exact Hall|]. intros (s & Hs & Hg) Hnil.
  apply (goal_expansion_reported _ _ (Hall s Hs) Hg).
  apply length_zero_iff_nil. rewrite <- cost_result_length, Hnil.
  reflexivity.
Qed.

(** X6.  When [==] on the states is equality and a solver returns, every
    reachable state has been expanded; so if some reachable state satisfies
    the goal predicate, the result set returned is not empty. *)
Theorem returned_search_is_exhaustive (order : search_order) (fuel : nat)
    (r : list (list StateT)) :
  (solver ss isGoalState order fuel = Some r ->
   (forall s, reachable ss s ->
      In s (expansions (@self StateT)
              (fst (solver_run ss isGoalState order fuel))))
   /\ ((exists s, reachable ss s /\ isGoalState s = true) -> r <> []))
  /\ (costSolver address_of ss isGoalState fuel = Some r ->
      (forall s, reachable ss s ->
         In s (expansions (fun x : queued StateT CostT => self (second x))
                 (fst (cost_run address_of ss isGoalState fuel))))
      /\ ((exists s, reachable ss s /\ isGoalState s = true) -> r <> [])).
Proof.
  split.
  - intros Hr. apply solver_exhaustive, Hr.
  - intros Hr. apply cost_exhaustive, Hr.
Qed.

End Exhaustive.

(** ** Breadth-first search *)

Section BreadthFirst.

Context {StateT CostT : Type}.
Context {state_equal : Equal StateT}.
Variable ss : state_space_t StateT CostT.
Variable isGoalState : StateT -> bool.
Hypothesis equal_spec : forall a b : StateT, equal a b = true <-> a = b.

Lemma first_failure {A : Type} (P : A -> Prop) (l : list A) :
  (forall a, P a \/ ~ P a) ->
  Forall P l
  \/ exists l1 y l2, l = l1 ++ y :: l2 /\ Forall P l1 /\ ~ P y.
Proof.
  intros Hdec. induction l as [|a l IH]; [left; constructor|].
  destruct (Hdec a) as [Ha|Ha].
  - destruct IH as [IH|(l1 & y & l2 & -> & H1 & Hy)].
    + left. constructor; assumption.
    + right. exists (a :: l1), y, l2. repeat split; auto.
  - right. exists [], a, l. repeat split; auto.
Qed.

Lemma linked_app_l (l1 l2 : list StateT) :
  forall a, linked ss a (l1 ++ l2) -> linked ss a l1.
Proof.
  induction l1 as [|x l1 IH]; intros a; simpl; [trivial|].
  intros [Hx Hl]. split; [exact Hx | apply IH, Hl].
Qed.

Lemma linked_last_step (l : list StateT) :
  forall a x, linked ss a (l ++ [x]) -> valid_step ss (last l a) x.
Proof.
  induction l as [|y l IH]; intros a x; simpl.
  - intros [Hx _]. exact Hx.
  - intros [_ Hl]. apply IH in Hl. destruct l as [|z l]; [exact Hl|].
    rewrite (last_cons_default l z a y). exact Hl.
Qed.

Lemma genuine_path_prefix (l1 l2 : list StateT) :
  genuine_path ss (l1 ++ l2) -> l1 <> [] -> genuine_path ss l1.
Proof.
  destruct l1 as [|a l1]; [intros _ H; now elim H|]. simpl.
  intros [Ha Hl] _. split; [exact Ha | eapply linked_app_l, Hl].
Qed.

Lemma genuine_path_last_step (pre : list StateT) (x d : StateT) :
  genuine_path ss (pre ++ [x]) -> pre <> [] ->
  valid_step ss (last pre d) x.
Proof.
  destruct pre as [|a pre]; [intros _ H; now elim H|]. simpl app.
  intros [_ Hl] _. apply linked_last_step in Hl.
  destruct pre as [|z pre]; [exact Hl|].
  rewrite (last_cons_default (z :: pre) a d a).
  change (last (a :: z :: pre) a) with (last (z :: pre) a). exact Hl.
Qed.

Lemma genuine_path_single (x : StateT) :
  genuine_path ss [x] -> x = _initialState ss.
Proof. simpl. tauto. Qed.

(** One breadth-first iteration that starts with an empty result set.  The
    frontier holds nodes of one depth followed by nodes of the next depth;
    every genuine path whose states before the last are visited and whose
    last state is not has that last state in the frontier, no deeper than
    the path is long. *)
Lemma breadth_first_step (v v' : solver_vars StateT)
    (i : iteration (trace_state StateT)) :
  solver_body ss isGoalState breadth_first v = Some (i, v') ->
  (exists d lo hi,
      waiting v = lo ++ hi
      /\ Forall (fun m => length (chain m) = d) lo
      /\ Forall (fun m => length (chain m) = S d) hi) ->
  ((In (_initialState ss) (passed v)
    \/ In (_initialState ss) (map (@self StateT) (waiting v)))
   /\ (forall s s', In s (passed v) -> valid_step ss s s' ->
         In s' (passed v) \/ In s' (map (@self StateT) (waiting v)))) ->
  (forall s, In s (passed v) -> isGoalState s = false) ->
  (forall pre x,
      genuine_path ss (pre ++ [x]) ->
      Forall (fun y => In y (passed v)) pre -> ~ In x (passed v) ->
      exists m, In m (waiting v) /\ self m = x
                /\ length (chain m) <= S (length pre)) ->
  (forall q, genuine_path ss q ->
             isGoalState (last q (_initialState ss)) = true ->
             length (chain (popped i)) <= length q)
  /\ (isGoalState (self (popped i)) = false ->
      (exists d lo hi,
          waiting v' = lo ++ hi
          /\ Forall (fun m => length (chain m) = d) lo
          /\ Forall (fun m => length (chain m) = S d) hi)
      /\ (forall s, In s (passed v') -> isGoalState s = false)
      /\ (forall pre x,
             genuine_path ss (pre ++ [x]) ->
             Forall (fun y => In y (passed v')) pre -> ~ In x (passed v') ->
             exists m, In m (waiting v') /\ self m = x
                       /\ length (chain m) <= S (length pre))).
Proof.
  intros Hb HS HE HN HC.
  pose proof (@solver_closure_step _ _ _ ss isGoalState equal_spec
                breadth_first v v' i HE Hb) as HE'.
  destruct (solver_body_some _ _ _ _ Hb)
    as (w1 & s0 & rest & Ht & _ & He & Hp' & Hw' & _).
  simpl in Ht. destruct (waiting v) as [|n w] eqn:Hwait; [discriminate|].
  injection Ht as Hn Hw1. subst w.
  (* the layers of the frontier, seen from its front *)
  assert (Hlayers : exists lo hi,
             w1 = lo ++ hi
             /\ Forall (fun m => length (chain m) = length (chain n)) lo
             /\ Forall (fun m => length (chain m) = S (length (chain n))) hi).
  { destruct HS as (d & lo & hi & Hsplit & Hlo & Hhi).
    destruct lo as [|x lo]; simpl in Hsplit.
    - subst hi. inversion Hhi as [|? ? Hd Hrest]; subst.
      exists w1, []. rewrite app_nil_r. repeat split; [|constructor].
      rewrite Hd. exact Hrest.
    - injection Hsplit as <- ->. inversion Hlo as [|? ? Hd Hrest]; subst.
      exists lo, hi. repeat split; assumption. }
  destruct Hlayers as (lo & hi & -> & Hlo & Hhi).
  assert (Hleast : forall m, In m (n :: lo ++ hi) ->
                     length (chain n) <= length (chain m)
                     /\ length (chain m) <= S (length (chain n))).
  { rewrite Forall_forall in Hlo, Hhi.
    intros m [<-|Hm]; [lia|]. apply in_app_or in Hm.
    destruct Hm as [Hm|Hm]; [rewrite (Hlo m Hm) | rewrite (Hhi m Hm)]; lia. }
  assert (Hdec : forall l (a : StateT), In a l \/ ~ In a l).
  { intros l a. destruct (find l a) eqn:Hf.
    - left. now apply (find_In equal_spec).
    - right. intros Hin. apply (find_In equal_spec) in Hin. congruence. }
  assert (Hpopped : In (self n) (passed v')).
  { rewrite Hp', <- Hn. destruct (expanded i).
    - apply in_or_app. right. left. reflexivity.
    - symmetry in He. apply negb_false_iff in He.
      rewrite <- Hn in He. now apply (find_In equal_spec). }
  assert (Hold : forall x, In x (passed v) -> In x (passed v')).
  { intros x Hx. rewrite Hp'. destruct (expanded i); [|exact Hx].
    apply in_or_app. now left. }
  rewrite <- Hn. split.
  - (* no genuine path to a goal is shorter than the chain at the front *)
    intros q Hq Hgoal.
    destruct (first_failure (fun y => In y (passed v)) q (Hdec (passed v)))
      as [Hall|(q1 & y & q2 & -> & Hq1 & Hy)].
    + destruct q as [|a q]; [now elim Hq|].
      rewrite Forall_forall in Hall.
      rewrite HN in Hgoal; [discriminate|].
      apply Hall.
      destruct (exists_last (l := a :: q)) as (l' & z & Hz); [discriminate|].
      rewrite Hz, last_last. apply in_or_app. right. left. reflexivity.
    + assert (Hpre : genuine_path ss (q1 ++ [y])).
      { apply genuine_path_prefix with (l2 := q2).
        - rewrite <- app_assoc. exact Hq.
        - destruct q1; discriminate. }
      destruct (HC q1 y Hpre Hq1 Hy) as (m & Hm & _ & Hlen).
      destruct (Hleast m Hm) as [Hle _].
      rewrite length_app. simpl. lia.
  - intros Hg. rewrite <- Hn, Hg in Hw'.
    rewrite push_successors_filter in Hw'.
    assert (Hrest : forall m, In m (lo ++ hi) -> In m (waiting v')).
    { intros m Hm. rewrite Hw'. destruct (expanded i); [|exact Hm].
      apply in_or_app. now left. }
    assert (Hdeep : forall m, In m (waiting v') ->
                      length (chain m) <= S (length (chain n))).
    { intros m Hm. rewrite Hw' in Hm.
      assert (Hm' : In m (lo ++ hi)
                    \/ exists s, m = mk_trace (Some n) s).
      { destruct (expanded i); [|now left].
        apply in_app_or in Hm. destruct Hm as [Hm|Hm]; [now left|].
        right. apply in_map_iff in Hm. destruct Hm as (t & <- & _). eauto. }
      destruct Hm' as [Hm'|(s & ->)].
      - apply Hleast. now right.
      - simpl. rewrite length_app. simpl. lia. }
    split; [|split].
    + exists (length (chain n)), lo.
      destruct (expanded i).
      * eexists. rewrite Hw', <- app_assoc. split; [reflexivity|].
        split; [exact Hlo|]. apply Forall_app. split; [exact Hhi|].
        apply Forall_forall. intros m Hm. apply in_map_iff in Hm.
        destruct Hm as (t & <- & _). simpl. rewrite length_app. simpl. lia.
      * exists hi. rewrite Hw'. auto.
    + intros s Hs. rewrite Hp' in Hs. destruct (expanded i); [|auto].
      apply in_app_or in Hs. destruct Hs as [Hs|[<-|[]]]; [auto|].
      rewrite <- Hn. exact Hg.
    + intros pre x Hpath Hpre Hx.
      assert (Hx0 : ~ In x (passed v)) by auto.
      destruct (first_failure (fun y => In y (passed v)) pre
                  (Hdec (passed v)))
        as [Hall|(pre1 & y & pre2 & -> & Hpre1 & Hy)].
      * destruct (HC pre x Hpath Hall Hx0) as (m & Hm & Hself & Hlen).
        exists m. repeat split; auto.
        destruct Hm as [<-|Hm]; [|apply Hrest, Hm].
        exfalso. apply Hx. rewrite <- Hself. exact Hpopped.
      * (* the first state that was not visited is the one just expanded *)
        assert (Hy' : In y (passed v')).
        { rewrite Forall_forall in Hpre. apply Hpre.
          apply in_or_app. right. left. reflexivity. }
        assert (Hprefix : genuine_path ss (pre1 ++ [y])).
        { apply genuine_path_prefix with (l2 := pre2 ++ [x]).
          - rewrite <- app_assoc. simpl. rewrite <- app_assoc in Hpath.
            exact Hpath.
          - destruct pre1; discriminate. }
        destruct (HC pre1 y Hprefix Hpre1 Hy) as (m0 & Hm0 & _ & Hlen0).
        destruct (Hleast m0 Hm0) as [Hle _].
        assert (Hstep : valid_step ss
                          (last (pre1 ++ y :: pre2) (_initialState ss)) x).
        { apply genuine_path_last_step; [exact Hpath|].
          destruct pre1; discriminate. }
        assert (Hz : In (last (pre1 ++ y :: pre2) (_initialState ss))
                        (passed v')).
        { rewrite Forall_forall in Hpre. apply Hpre.
          destruct (exists_last (l := pre1 ++ y :: pre2))
            as (l' & z & Hlz); [destruct pre1; discriminate|].
          rewrite Hlz, last_last. apply in_or_app. right. left.
          reflexivity. }
        destruct HE' as [_ HE'].
        destruct (HE' _ _ Hz Hstep) as [Hin|Hin]; [contradiction|].
        apply in_map_iff in Hin. destruct Hin as (m & Hself & Hm).
        exists m. repeat split; auto.
        specialize (Hdeep m Hm). rewrite length_app. simpl. lia.
Qed.

(** No genuine path to a goal state is shorter than the first entry of the
    result set of a breadth-first search. *)
Lemma breadth_first_first_entry_least (n : nat)
    (p : list StateT) (rest : list (list StateT)) (q : list StateT) :
  result (snd (solver_run ss isGoalState breadth_first n)) = p :: rest ->
  genuine_path ss q ->
  isGoalState (last q (_initialState ss)) = true ->
  length p <= length q.
Proof.
  revert p rest q.
  apply (@iterate_invariant _ _ (solver_body ss isGoalState breadth_first)
           (fun v =>
              (result v = [] ->
               (traces v = [] /\ containedSolution v = [])
               /\ (exists d lo hi,
                      waiting v = lo ++ hi
                      /\ Forall (fun m => length (chain m) = d) lo
                      /\ Forall (fun m => length (chain m) = S d) hi)
               /\ ((In (_initialState ss) (passed v)
                    \/ In (_initialState ss)
                         (map (@self StateT) (waiting v)))
                   /\ (forall s s', In s (passed v) -> valid_step ss s s' ->
                         In s' (passed v)
                         \/ In s' (map (@self StateT) (waiting v))))
               /\ (forall s, In s (passed v) -> isGoalState s = false)
               /\ (forall pre x,
                      genuine_path ss (pre ++ [x]) ->
                      Forall (fun y => In y (passed v)) pre ->
                      ~ In x (passed v) ->
                      exists m, In m (waiting v) /\ self m = x
                                /\ length (chain m) <= S (length pre)))
              /\ forall p rest q,
                   result v = p :: rest ->
                   genuine_path ss q ->
                   isGoalState (last q (_initialState ss)) = true ->
                   length p <= length q)
           (fun _ => True)).
  - intros v v' i [Hempty Hfirst] Hb. split; [|exact I].
    destruct (solver_body_some _ _ _ _ Hb)
      as (w1 & s0 & rest0 & _ & _ & _ & _ & _ & Ht' & Hc' & Hr').
    destruct (result v) as [|p0 r0] eqn:Hres.
    + destruct (Hempty eq_refl) as ((Htr & Hcs) & HS & HE & HN & HC).
      destruct (@breadth_first_step v v' i Hb HS HE HN HC) as [Hshort Hnext].
      destruct (isGoalState (self (popped i))) eqn:Hg.
      * split; [rewrite Hr'; discriminate|].
        intros p rest q. rewrite Hr', Htr, Hcs, app_nil_r. simpl.
        intros [= <- <-]. apply Hshort.
      * split; [|rewrite Hr'; discriminate].
        intros _. destruct (Hnext eq_refl) as (HS' & HN' & HC').
        destruct (@solver_closure_step _ _ _ ss isGoalState equal_spec
                    breadth_first v v' i HE Hb) as [HE1 HE2].
        rewrite Ht', Hc'. repeat split; auto.
    + split; [rewrite Hr'; destruct (isGoalState _); discriminate|].
      intros p rest q. rewrite Hr'.
      destruct (isGoalState (self (popped i))); simpl;
        intros [= <- _]; apply (Hfirst p0 r0 q eq_refl).
  - simpl. split; [|discriminate]. intros _.
    split; [split; reflexivity|].
    split.
    { exists 1, [mk_trace None (_initialState ss)], [].
      repeat split; repeat constructor. }
    split; [split; [right; left; reflexivity | intros s s' []]|].
    split; [intros s []|].
    intros pre x Hpath Hpre _. exists (mk_trace None (_initialState ss)).
    destruct pre as [|a pre].
    + apply genuine_path_single in Hpath. subst x.
      repeat split; simpl; auto.
    + inversion Hpre as [|? ? Ha]; subst. destruct Ha.
Qed.

(** X7.  When [==] on the states is equality, the first entry of the result
    set of a breadth-first search is a shortest path to a goal state: it is
    a sequence of valid steps from the initial state to a state that
    satisfies the goal predicate, and no such sequence is shorter. *)
Theorem breadth_first_finds_a_shortest_path_first (n : nat)
    (p : list StateT) (rest : list (list StateT)) :
  result (snd (solver_run ss isGoalState breadth_first n)) = p :: rest ->
  genuine_path ss p
  /\ isGoalState (last p (_initialState ss)) = true
  /\ forall q, genuine_path ss q ->
       isGoalState (last q (_initialState ss)) = true ->
       length p <= length q.
Proof.
  intros Hres.
  destruct (@solver_first_entry_genuine _ _ _ ss isGoalState breadth_first n
              p rest Hres) as [Hpath Hgoal].
  split; [exact Hpath|]. split; [exact Hgoal|].
  intros q Hq Hqg.
  exact (@breadth_first_first_entry_least n p rest q Hres Hq Hqg).
Qed.

End BreadthFirst.

Lemma nat_equal_spec : forall a b : nat, equal a b = true <-> a = b.
Proof. intros a b. apply Nat.eqb_eq. Qed.

Lemma line_step (n : nat) : n < 2 -> valid_step line n (S n).
Proof.
  intros Hn. exists S. simpl. apply Nat.ltb_lt in Hn. rewrite Hn.
  repeat split. left. reflexivity.
Qed.

Lemma finite_state_space_terminates_witness :
  exists r, check ascending line positive breadth_first 4 = Some r.
Proof.
  apply (@finite_state_space_terminates nat nat _ _ ascending line positive
           Nat.eqb_refl [0; 1; 2] 1).
  - left. reflexivity.
  - intros s t Hs Ht _. simpl in Hs.
    destruct Hs as [<-|[<-|[<-|[]]]]; simpl in Ht;
      try contradiction; destruct Ht as [<-|[]]; simpl; auto.
  - intros s Hs. simpl. destruct (s <? 2); simpl; lia.
  - simpl. lia.
Defined.

Lemma returned_search_is_exhaustive_witness :
  (forall s, reachable line s ->
     In s (expansions (@self nat)
             (fst (solver_run line positive breadth_first 3))))
  /\ [[0; 1]; [0; 1; 0; 2; 0; 1]] <> [].
Proof.
  destruct (@returned_search_is_exhaustive nat nat _ _ ascending line positive
              nat_equal_spec breadth_first 3 [[0; 1]; [0; 1; 0; 2; 0; 1]])
    as [Hs _].
  destruct (Hs eq_refl) as [Hall Hsome].
  split; [exact Hall|]. apply Hsome. exists 1. split; [|reflexivity].
  apply reachable_step with (a := 0); [apply reachable_initial|].
  apply line_step. lia.
Defined.

Lemma breadth_first_finds_a_shortest_path_first_witness :
  genuine_path line [0; 1]
  /\ positive (last [0; 1] 0) = true
  /\ forall q, genuine_path line q -> positive (last q 0) = true ->
       length [0; 1] <= length q.
Proof.
  apply (@breadth_first_finds_a_shortest_path_first nat nat _ line positive
           nat_equal_spec 3 [0; 1] [[0; 1; 0; 2; 0; 1]]).
  reflexivity.
Defined.

(** ** family.cpp: equality, the cost ordering and the passenger count *)

Lemma person_pos_eqb_spec (a b : person_t.pos_t) :
  person_t.pos_eqb a b = true <-> a = b.
Proof. destruct a, b; simpl; split; congruence. Qed.

Lemma boat_pos_eqb_spec (a b : boat_t.pos_t) :
  boat_t.pos_eqb a b = true <-> a = b.
Proof. destruct a, b; simpl; split; congruence. Qed.

Lemma persons_eqb_spec (a : list person_t.t) :
  forall b, persons_eqb a b = true <-> a = b.
Proof.
  induction a as [|[x] a IH]; intros [|[y] b]; simpl;
    try (split; congruence).
  unfold person_t.eqb. simpl. rewrite andb_true_iff, person_pos_eqb_spec, IH.
  split; [intros [-> ->]; reflexivity | intros [= -> ->]; auto].
Qed.

Lemma boat_eqb_spec (b1 b2 : boat_t.t) : boat_t.eqb b1 b2 = true <-> b1 = b2.
Proof.
  destruct b1 as [p1 c1 n1], b2 as [p2 c2 n2]. unfold boat_t.eqb. simpl.
  rewrite !andb_true_iff, boat_pos_eqb_spec, !Z.eqb_eq.
  split; [intros [[-> ->] ->]; reflexivity | intros [= -> -> ->]; auto].
Qed.

(** The [==] that the solvers use on [state_t] is equality. *)
Lemma state_equal_spec (a b : state_t) : equal a b = true <-> a = b.
Proof.
  unfold equal, state_t_equal, state_eqb.
  rewrite andb_true_iff, boat_eqb_spec, persons_eqb_spec.
  destruct a, b; simpl. split; [intros [-> ->] | intros [= -> ->]]; auto.
Qed.

(** X8.  [operator==] on [state_t] holds exactly of equal states: the boats
    agree in position, passengers and capacity and the persons agree in
    position, one by one. *)
Theorem state_eqb_spec (state1 state2 : state_t) :
  state_eqb state1 state2 = true <-> state1 = state2.
Proof.
  destruct state1 as [[p1 c1 n1] ps1], state2 as [[p2 c2 n2] ps2].
  unfold state_eqb, boat_t.eqb. simpl.
  rewrite !andb_true_iff, boat_pos_eqb_spec, !Z.eqb_eq, persons_eqb_spec.
  split.
  - intros [[[-> ->] ->] ->]. reflexivity.
  - intros [= -> -> -> ->]. auto.
Qed.

(** [cost_t::operator<] is a strict weak ordering, as the priority queue
    requires. *)
Lemma cost_lt_strict_weak_order : strict_weak_order (CostT := cost_t).
Proof.
  split; unfold less, cost_t_less, cost_lt.
  - intros [d n]. simpl. rewrite !Z.gtb_ltb, !Z.ltb_irrefl. reflexivity.
  - intros [d1 n1] [d2 n2] [d3 n3]. simpl. rewrite !Z.gtb_ltb.
    repeat match goal with
           | |- context [(?a <? ?b)%Z] => destruct (Z.ltb_spec a b)
           end; try congruence; try lia.
  - intros [d1 n1] [d2 n2] [d3 n3]. simpl. rewrite !Z.gtb_ltb.
    repeat match goal with
           | |- context [(?a <? ?b)%Z] => destruct (Z.ltb_spec a b)
           end; intros; split; try congruence; try lia.
Qed.

(** X9.  [cost_t::operator<], which is a strict weak ordering, makes the
    cost-ordered solver pop an entry whose depth is numerically least in the
    frontier, and whose noise is least among the entries of that depth. *)
Theorem cost_t_pops_least_depth {StateT : Type} {state_equal : Equal StateT}
    (address_of : nat -> Z) (ss : state_space_t StateT cost_t)
    (isGoalState : StateT -> bool) (v v' : cost_vars StateT cost_t)
    (i : iteration (queued StateT cost_t)) :
  cost_body address_of ss isGoalState v = Some (i, v') ->
  forall x, In x (cwaiting v) ->
    (depth (first (popped i)) <= depth (first x))%Z
    /\ (depth (first (popped i)) = depth (first x) ->
        (noise (first (popped i)) <= noise (first x))%Z).
Proof.
  intros Hb x Hx.
  destruct (cost_body_some _ _ _ _ Hb) as (w1 & s & rest & Hpop & _).
  pose proof (pair_less_cost _ _
                (pop_top_greatest cost_lt_strict_weak_order _ Hpop _ Hx))
    as Hless.
  unfold less, cost_t_less, cost_lt in Hless. rewrite !Z.gtb_ltb in Hless.
  repeat match type of Hless with
         | context [(?a <? ?b)%Z] => destruct (Z.ltb_spec a b)
         end; try discriminate; split; lia.
Qed.

Lemma cost_t_pops_least_depth_witness :
  (depth (mk_cost 1 5) <= depth (mk_cost 3 0))%Z
  /\ (depth (mk_cost 1 5) = depth (mk_cost 3 0) ->
      (noise (mk_cost 1 5) <= noise (mk_cost 3 0))%Z).
Proof.
  assert (Hb : cost_body ascending (family_space depth_cost) goal
                 {| cpassed := [initial_state];
                    cwaiting :=
                      [mk_queued (mk_cost 2 0) 0%Z
                         (mk_trace None initial_state);
                       mk_queued (mk_cost 1 5) 1%Z
                         (mk_trace None initial_state);
                       mk_queued (mk_cost 3 0) 2%Z
                         (mk_trace None initial_state)];
                    solution := [];
                    ccontainedSolution := [];
                    cresult := [];
                    allocated := 3 |}
               = Some (mk_iteration
                         (mk_queued (mk_cost 1 5) 1%Z
                            (mk_trace None initial_state)) false,
                       {| cpassed := [initial_state];
                          cwaiting :=
                            [mk_queued (mk_cost 2 0) 0%Z
                               (mk_trace None initial_state);
                             mk_queued (mk_cost 3 0) 2%Z
                               (mk_trace None initial_state)];
                          solution := [];
                          ccontainedSolution := [];
                          cresult := [];
                          allocated := 3 |}))
    by (vm_compute; reflexivity).
  apply (@cost_t_pops_least_depth _ _ _ _ _ _ _ _ Hb
           (mk_queued (mk_cost 3 0) 2%Z (mk_trace None initial_state))).
  simpl. auto.
Defined.

Lemma set_person_length (ps : list person_t.t) :
  forall i p, length (set_person i p ps) = length ps.
Proof.
  induction ps as [|x ps IH]; intros [|i] p; simpl; auto.
Qed.

Lemma onboard_count_bounds (ps : list person_t.t) :
  (0 <= onboard_count ps <= Z.of_nat (length ps))%Z.
Proof.
  unfold onboard_count. split; [lia|]. apply inj_le, filter_length_le.
Qed.

Lemma onboard_board_length (ps : list person_t.t) :
  forall i d,
    i < length ps ->
    person_t.pos (nth i ps d) <> person_t.onboard ->
    length (filter (fun p => person_t.pos_eqb (person_t.pos p)
                               person_t.onboard)
              (set_person i person_t.onboard ps))
    = S (length (filter (fun p => person_t.pos_eqb (person_t.pos p)
                                    person_t.onboard) ps)).
Proof.
  induction ps as [|[x] ps IH]; intros [|i] d Hi Hpos; simpl in *; try lia.
  - destruct x; simpl; try reflexivity. now elim Hpos.
  - specialize (IH i d (proj2 (Nat.succ_lt_mono _ _) Hi) Hpos).
    destruct (person_t.pos_eqb x person_t.onboard); simpl; lia.
Qed.

Lemma onboard_leave_length (ps : list person_t.t) :
  forall i d shore,
    i < length ps ->
    person_t.pos (nth i ps d) = person_t.onboard ->
    shore <> person_t.onboard ->
    S (length (filter (fun p => person_t.pos_eqb (person_t.pos p)
                                  person_t.onboard)
                 (set_person i shore ps)))
    = length (filter (fun p => person_t.pos_eqb (person_t.pos p)
                                 person_t.onboard) ps).
Proof.
  induction ps as [|[x] ps IH]; intros [|i] d shore Hi Hpos Hshore;
    simpl in *; try lia.
  - subst x. destruct shore; simpl; try reflexivity. now elim Hshore.
  - specialize (IH i d shore (proj2 (Nat.succ_lt_mono _ _) Hi) Hpos Hshore).
    destruct (person_t.pos_eqb x person_t.onboard); simpl; lia.
Qed.

Lemma onboard_count_board (ps : list person_t.t) (i : nat) (d : person_t.t) :
  i < length ps ->
  person_t.pos (nth i ps d) <> person_t.onboard ->
  onboard_count (set_person i person_t.onboard ps)
  = (onboard_count ps + 1)%Z.
Proof.
  intros Hi Hpos. unfold onboard_count.
  rewrite (onboard_board_length _ _ Hi Hpos). lia.
Qed.

Lemma onboard_count_leave (ps : list person_t.t) (i : nat) (d : person_t.t)
    (shore : person_t.pos_t) :
  i < length ps ->
  person_t.pos (nth i ps d) = person_t.onboard ->
  shore <> person_t.onboard ->
  onboard_count (set_person i shore ps) = (onboard_count ps - 1)%Z.
Proof.
  intros Hi Hpos Hshore. unfold onboard_count.
  rewrite <- (onboard_leave_length _ _ Hi Hpos Hshore). lia.
Qed.

Lemma onboard_count_arrive (shore : person_t.pos_t) (ps : list person_t.t) :
  shore <> person_t.onboard ->
  onboard_count
    (map (fun p => if person_t.pos_eqb (person_t.pos p) person_t.onboard
                   then person_t.mk shore else p) ps) = 0%Z.
Proof.
  intros Hshore. unfold onboard_count.
  induction ps as [|[x] ps IH]; simpl; [reflexivity|].
  destruct x; simpl; try exact IH.
  destruct shore; simpl; try exact IH. now elim Hshore.
Qed.

(** The transitions that [transitions] yields at a state, by kind. *)
Lemma transitions_cases (s : state_t) (t : state_t -> state_t) :
  In t (transitions s) ->
  t = start_travel \/ t = arrive_shore1 \/ t = arrive_shore2
  \/ (exists i, i < 8 /\ person_pos s i <> person_t.onboard /\ t = board i)
  \/ (exists i shore,
        i < 8 /\ person_pos s i = person_t.onboard
        /\ shore <> person_t.onboard /\ t = leave shore i).
Proof.
  unfold transitions. intros Hin. apply in_app_or in Hin.
  destruct Hin as [Hin|Hin].
  - destruct (boat_t.pos (boat s));
      [destruct (boat_t.passengers (boat s) >? 0)%Z | |
       destruct (boat_t.passengers (boat s) >? 0)%Z];
      simpl in Hin; intuition auto.
  - apply in_flat_map in Hin. destruct Hin as (i & Hi & Hin).
    apply in_seq in Hi.
    destruct (person_pos s i) eqn:Hpos;
      destruct (boat_t.pos_eqb (boat_t.pos (boat s)) boat_t.shore1);
      destruct (boat_t.pos_eqb (boat_t.pos (boat s)) boat_t.shore2);
      simpl in Hin; try contradiction; destruct Hin as [<-|[]];
      first
        [ right; right; right; left; exists i;
          split; [lia | split; [rewrite Hpos; discriminate | reflexivity]]
        | right; right; right; right; eexists i, _;
          split; [lia | split; [exact Hpos | split; [|reflexivity]]];
          discriminate ].
Qed.

(** Every transition keeps the eight persons and keeps the passenger count
    of the boat equal to the number of persons on board. *)
Lemma transitions_count (s : state_t) (t : state_t -> state_t) :
  length (persons s) = 8 ->
  boat_t.passengers (boat s) = onboard_count (persons s) ->
  In t (transitions s) ->
  length (persons (t s)) = 8
  /\ boat_t.passengers (boat (t s)) = onboard_count (persons (t s)).
Proof.
  intros Hlen Hcount Hin.
  pose proof (onboard_count_bounds (persons s)) as Hb. rewrite Hlen in Hb.
  destruct (transitions_cases _ _ Hin)
    as [->|[->|[->|[(i & Hi & Hpos & ->)|(i & shore & Hi & Hpos & Hs & ->)]]]];
    simpl.
  - auto.
  - rewrite length_map, onboard_count_arrive by discriminate. auto.
  - rewrite length_map, onboard_count_arrive by discriminate. auto.
  - rewrite set_person_length. split; [exact Hlen|].
    rewrite (@onboard_count_board _ i (person_t.mk person_t.shore1))
      by (rewrite ?Hlen; assumption).
    rewrite Hcount. unfold uint16. apply Z.mod_small. lia.
  - rewrite set_person_length. split; [exact Hlen|].
    pose proof (onboard_count_bounds (set_person i shore (persons s))) as Hb'.
    rewrite (@onboard_count_leave _ i (person_t.mk person_t.shore1))
      in * by (rewrite ?Hlen; assumption).
    rewrite Hcount. unfold uint16. apply Z.mod_small. lia.
Qed.

(** X11.  Whatever the cost function and the addresses of the nodes, every
    state of every entry that [solve] returns has its eight persons and a
    passenger counter equal to the number of persons on board: the
    sixteen-bit counter never wraps around. *)
Theorem passengers_are_the_persons_on_board (address_of : nat -> Z)
    (cost : state_t -> cost_t -> cost_t) (fuel : nat)
    (r : list (list state_t)) :
  solve address_of cost fuel = Some r ->
  forall p, In p r ->
  forall s, In s p ->
    length (persons s) = 8
    /\ boat_t.passengers (boat s) = onboard_count (persons s).
Proof.
  unfold solve, check. simpl. unfold costSolver.
  destruct (cwaiting (snd (cost_run address_of (family_space cost) goal fuel)));
    [|discriminate].
  intros [= <-] p Hp s Hs.
  destruct (@cost_states _ _ _ _ address_of (family_space cost) goal
              (fun s => length (persons s) = 8
                        /\ boat_t.passengers (boat s)
                           = onboard_count (persons s)))
    with (n := fuel) as [Hres _].
  - simpl. intros s0 t [Hlen Hcount] Hin _.
    apply transitions_count; assumption.
  - simpl. split; reflexivity.
  - rewrite Forall_forall in Hres. specialize (Hres p Hp).
    rewrite Forall_forall in Hres. apply (Hres s Hs).
Qed.

Lemma passengers_are_the_persons_on_board_witness :
  exists r,
    solve ascending depth_cost 2000 = Some r
    /\ forall p, In p r ->
       forall s, In s p ->
         length (persons s) = 8
         /\ boat_t.passengers (boat s) = onboard_count (persons s).
Proof.
  destruct (solve ascending depth_cost 2000) as [r|] eqn:Hsolve.
  - exists r. split; [reflexivity|].
    exact (passengers_are_the_persons_on_board ascending depth_cost 2000
             Hsolve).
  - revert Hsolve. vm_compute. discriminate.
Defined.

(** ** Checking a path by computation *)

Section PathCheck.

Context {StateT CostT : Type}.
Context {state_equal : Equal StateT}.
Variable ss : state_space_t StateT CostT.
Variable isGoalState : StateT -> bool.
Hypothesis equal_spec : forall a b : StateT, equal a b = true <-> a = b.

Lemma is_step_valid (a b : StateT) :
  is_step ss a b = true -> valid_step ss a b.
Proof.
  unfold is_step. rewrite andb_true_iff, existsb_exists.
  intros [(t & Hin & He) Hinv]. apply equal_spec in He. exists t. auto.
Qed.

Lemma steps_from_linked (l : list StateT) :
  forall a, steps_from ss a l = true -> linked ss a l.
Proof.
  induction l as [|b l IH]; intros a; simpl; [trivial|].
  rewrite andb_true_iff. intros [Hb Hl].
  split; [apply is_step_valid, Hb | apply IH, Hl].
Qed.

Lemma is_path_genuine (p : list StateT) :
  is_path ss isGoalState p = true ->
  genuine_path ss p /\ isGoalState (last p (_initialState ss)) = true.
Proof.
  destruct p as [|a p]; [discriminate|]. unfold is_path.
  rewrite !andb_true_iff. intros [[Ha Hl] Hg].
  apply equal_spec in Ha. split.
  - split; [exact Ha | apply steps_from_linked, Hl].
  - rewrite (last_cons_default p a (_initialState ss) a). exact Hg.
Qed.

Lemma linked_reachable (l : list StateT) :
  forall a, reachable ss a -> linked ss a l -> reachable ss (last l a).
Proof.
  induction l as [|b l IH]; intros a Ha; simpl; [trivial|].
  intros [Hb Hl].
  assert (Hrb : reachable ss b) by (eapply reachable_step; eassumption).
  specialize (IH b Hrb Hl). destruct l as [|c l]; [exact Hrb|].
  rewrite (last_cons_default l c a b). exact IH.
Qed.

Lemma genuine_path_reachable (p : list StateT) :
  genuine_path ss p -> reachable ss (last p (_initialState ss)).
Proof.
  destruct p as [|a p]; [intros []|]. intros [-> Hl].
  pose proof (linked_reachable p (reachable_initial ss) Hl) as Hr.
  destruct p as [|b p]; exact Hr.
Qed.

End PathCheck.

(** ** crossing.cpp *)

Lemma crossing_pos_eqb_spec (a b : crossing.pos_t) :
  crossing.pos_eqb a b = true <-> a = b.
Proof. destruct a, b; simpl; split; congruence. Qed.

(** The [==] that the solver uses on [actors_t] is equality. *)
Lemma actors_equal_spec (a : crossing.actors_t) :
  forall b : crossing.actors_t, equal a b = true <-> a = b.
Proof.
  unfold equal, crossing.actors_equal.
  induction a as [|x a IH]; intros [|y b]; simpl; try (split; congruence).
  rewrite andb_true_iff, crossing_pos_eqb_spec, IH.
  split; [intros [-> ->]; reflexivity | intros [= -> ->]; auto].
Qed.

Lemma crossing_set_length (actors : crossing.actors_t) :
  forall i p, length (crossing.set i p actors) = length actors.
Proof.
  induction actors as [|x actors IH]; intros [|i] p; simpl; auto.
Qed.

Lemma all_actors_length (actors : crossing.actors_t) :
  In actors crossing.all_actors <-> length actors = 3.
Proof.
  split.
  - intros Hin. simpl in Hin.
    repeat (destruct Hin as [<-|Hin]; [reflexivity|]). contradiction.
  - destruct actors as [|a [|b [|c [|d actors]]]]; try discriminate.
    intros _. destruct a, b, c; simpl; auto 30.
Qed.

Lemma crossing_transitions_length (actors : crossing.actors_t)
    (t : crossing.actors_t -> crossing.actors_t) :
  In t (crossing.transitions actors) -> length (t actors) = length actors.
Proof.
  unfold crossing.transitions. intros Hin. apply in_flat_map in Hin.
  destruct Hin as (i & _ & Hin).
  destruct (crossing.at_ actors i); simpl in Hin;
    intuition (subst; apply crossing_set_length).
Qed.

Lemma crossing_transitions_bound (actors : crossing.actors_t) :
  length (crossing.transitions actors) <= 6.
Proof.
  unfold crossing.transitions. simpl.
  destruct (crossing.at_ actors 0), (crossing.at_ actors 1),
    (crossing.at_ actors 2); simpl; lia.
Qed.

(** X10.  No trace that [solve] of crossing.cpp returns holds a state that
    [is_valid] rejects: in every state at most one actor travels, and the
    goat is neither with the wolf while the cabbage travels nor with the
    cabbage while the wolf travels. *)
Theorem crossing_traces_are_valid (fuel : nat)
    (r : list (list crossing.actors_t)) :
  crossing.solve fuel = Some r ->
  forall p, In p r ->
  forall s, In s p -> crossing.is_valid s = true.
Proof.
  unfold crossing.solve, check. simpl. unfold solver.
  destruct (waiting (snd (solver_run crossing.space crossing.all_across
                            breadth_first fuel))); [|discriminate].
  intros [= <-] p Hp s Hs.
  destruct (@solver_states _ _ _ crossing.space crossing.all_across
              breadth_first (fun s => crossing.is_valid s = true))
    with (n := fuel) as [Hres _].
  - simpl. auto.
  - reflexivity.
  - rewrite Forall_forall in Hres. specialize (Hres p Hp).
    rewrite Forall_forall in Hres. apply (Hres s Hs).
Qed.

(** X12.  [solve] of crossing.cpp terminates within 163 iterations of the
    search loop (it returns whenever it is allowed 163 iterations or more)
    and returns a result set that is not empty; the first trace is a
    sequence of valid steps from all actors on shore 1 to all actors on
    shore 2, and no such sequence is shorter. *)
Theorem crossing_solve_finds_a_shortest_trace (fuel : nat) :
  163 <= fuel ->
  exists p rest,
    crossing.solve fuel = Some (p :: rest)
    /\ genuine_path crossing.space p
    /\ crossing.all_across (last p crossing.start) = true
    /\ forall q, genuine_path crossing.space q ->
         crossing.all_across (last q crossing.start) = true ->
         length p <= length q.
Proof.
  intros Hfuel.
  assert (Hspec : forall a b : crossing.actors_t,
             equal a b = true <-> a = b)
    by (intros a b; apply actors_equal_spec).
  destruct (@solver_terminates _ _ _ crossing.space crossing.all_across
              (fun a => proj2 (Hspec a a) eq_refl)
              crossing.all_actors 6)
    with (order := breadth_first) (fuel := fuel) as [r Hr].
  - apply all_actors_length. reflexivity.
  - intros s t Hs Ht _. apply all_actors_length.
    rewrite (crossing_transitions_length _ _ Ht).
    now apply all_actors_length.
  - intros s _. apply crossing_transitions_bound.
  - simpl. lia.
  - assert (Hsolver : solver crossing.space crossing.all_across breadth_first
                        fuel = Some r) by exact Hr.
    destruct (@solver_exhaustive _ _ _ crossing.space crossing.all_across
                Hspec breadth_first fuel r Hsolver) as [_ Hsome].
    assert (Hgoal : is_path crossing.space crossing.all_across
                      [[crossing.shore1; crossing.shore1; crossing.shore1];
                       [crossing.shore1; crossing.travel; crossing.shore1];
                       [crossing.shore1; crossing.shore2; crossing.shore1];
                       [crossing.travel; crossing.shore2; crossing.shore1];
                       [crossing.shore2; crossing.shore2; crossing.shore1];
                       [crossing.shore2; crossing.travel; crossing.shore1];
                       [crossing.shore2; crossing.shore1; crossing.shore1];
                       [crossing.shore2; crossing.shore1; crossing.travel];
                       [crossing.shore2; crossing.shore1; crossing.shore2];
                       [crossing.shore2; crossing.travel; crossing.shore2];
                       [crossing.shore2; crossing.shore2; crossing.shore2]]
                    = true) by reflexivity.
    apply (is_path_genuine crossing.space crossing.all_across Hspec)
      in Hgoal.
    destruct Hgoal as [Hpath Hacross].
    destruct r as [|p rest].
    + exfalso. apply Hsome; [|reflexivity].
      eexists. split; [|exact Hacross].
      exact (genuine_path_reachable crossing.space _ Hpath).
    + exists p, rest. split; [exact Hr|].
      unfold solver in Hsolver.
      destruct (waiting (snd (solver_run crossing.space crossing.all_across
                                breadth_first fuel))); [|discriminate].
      injection Hsolver as Hres.
      destruct (@solver_first_entry_genuine _ _ _ crossing.space
                  crossing.all_across breadth_first fuel p rest Hres)
        as [Hp Hg].
      split; [exact Hp|]. split; [exact Hg|].
      intros q Hq Hqg.
      apply (@breadth_first_first_entry_least _ _ _
               crossing.space crossing.all_across Hspec fuel p rest q);
        assumption.
Qed.

Lemma crossing_solve_finds_a_shortest_trace_witness :
  exists p rest,
    crossing.solve 163 = Some (p :: rest)
    /\ genuine_path crossing.space p
    /\ crossing.all_across (last p crossing.start) = true
    /\ forall q, genuine_path crossing.space q ->
         crossing.all_across (last q crossing.start) = true ->
         length p <= length q.
Proof.
  apply (@crossing_solve_finds_a_shortest_trace 163). lia.
Defined.

Lemma crossing_traces_are_valid_witness :
  exists r,
    crossing.solve 40 = Some r
    /\ forall p, In p r -> forall s, In s p -> crossing.is_valid s = true.
Proof.
  destruct (crossing.solve 40) as [r|] eqn:Hsolve.
  - exists r. split; [reflexivity|].
    exact (@crossing_traces_are_valid 40 r Hsolve).
  - revert Hsolve. vm_compute. discriminate.
Defined.

(** ** family.cpp: the search ends and finds a solution *)

Lemma in_all_persons (n : nat) :
  forall ps, In ps (all_persons n) <-> length ps = n.
Proof.
  induction n as [|n IH]; intros ps; simpl.
  - split; [intros [<-|[]]; reflexivity|].
    destruct ps; [auto | discriminate].
  - rewrite in_flat_map. split.
    + intros (qs & Hqs & Hin). apply IH in Hqs. simpl in Hin.
      destruct Hin as [<-|[<-|[<-|[]]]]; simpl; congruence.
    + destruct ps as [|[p] ps]; [discriminate|]. intros [= Hlen].
      exists ps. split; [now apply IH|]. destruct p; simpl; auto.
Qed.

Lemma in_all_states (s : state_t) :
  In s all_states
  <-> length (persons s) = 8
      /\ boat_t.capacity (boat s) = 2%Z
      /\ boat_t.passengers (boat s) = onboard_count (persons s).
Proof.
  unfold all_states. rewrite in_flat_map. split.
  - intros (ps & Hps & Hin). apply in_all_persons in Hps.
    simpl in Hin. destruct Hin as [<-|[<-|[<-|[]]]]; simpl; auto.
  - intros (Hlen & Hcap & Hcount). destruct s as [[b c n] ps].
    cbn [persons boat boat_t.capacity boat_t.passengers] in *. subst c n.
    exists ps. split; [now apply in_all_persons|].
    destruct b; cbn [map In]; auto.
Qed.

Lemma flat_map_length_const {A B : Type} (f : A -> list B) (k : nat)
    (l : list A) :
  (forall a, length (f a) = k) -> length (flat_map f l) = k * length l.
Proof.
  intros Hf. induction l as [|a l IH]; simpl; [lia|].
  rewrite length_app, Hf, IH. lia.
Qed.

Lemma all_persons_length (n : nat) : length (all_persons n) = 3 ^ n.
Proof.
  induction n as [|n IH]; [reflexivity|].
  cbn [all_persons]. rewrite (@flat_map_length_const _ _ _ 3), IH.
  - rewrite Nat.pow_succ_r'. reflexivity.
  - intros ps. reflexivity.
Qed.

Lemma all_states_length : length all_states = 3 * 3 ^ 8.
Proof.
  unfold all_states.
  rewrite (@flat_map_length_const _ _ _ 3), all_persons_length; [reflexivity|].
  intros ps. reflexivity.
Qed.

Lemma flat_map_length_le {A B : Type} (f : A -> list B) (l : list A) :
  (forall a, length (f a) <= 1) -> length (flat_map f l) <= length l.
Proof.
  intros Hf. induction l as [|a l IH]; simpl; [lia|].
  rewrite length_app. specialize (Hf a). lia.
Qed.

Lemma transitions_bound (s : state_t) : length (transitions s) <= 10.
Proof.
  unfold transitions. rewrite length_app.
  match goal with
  | |- context [flat_map ?f (seq 0 8)] =>
      pose proof (flat_map_length_le f (seq 0 8)) as Hpersons
  end.
  rewrite length_seq in Hpersons.
  assert (Hboat : length
                    (match boat_t.pos (boat s) with
                     | boat_t.travel => [arrive_shore1; arrive_shore2]
                     | _ => if (boat_t.passengers (boat s) >? 0)%Z
                            then [start_travel] else []
                     end) <= 2).
  { destruct (boat_t.pos (boat s));
      try destruct (boat_t.passengers (boat s) >? 0)%Z; simpl; lia. }
  assert (length (flat_map
            (fun i =>
               match person_pos s i with
               | person_t.shore1 =>
                   if boat_t.pos_eqb (boat_t.pos (boat s)) boat_t.shore1
                   then [board i] else []
               | person_t.onboard =>
                   if boat_t.pos_eqb (boat_t.pos (boat s)) boat_t.shore1
                   then [leave person_t.shore1 i]
                   else if boat_t.pos_eqb (boat_t.pos (boat s)) boat_t.shore2
                   then [leave person_t.shore2 i] else []
               | person_t.shore2 =>
                   if boat_t.pos_eqb (boat_t.pos (boat s)) boat_t.shore2
                   then [board i] else []
               end) (seq 0 8)) <= 8).
  { apply Hpersons. intros i.
    destruct (person_pos s i);
      destruct (boat_t.pos_eqb (boat_t.pos (boat s)) boat_t.shore1);
      destruct (boat_t.pos_eqb (boat_t.pos (boat s)) boat_t.shore2);
      simpl; lia. }
  lia.
Qed.



(** X13.  Whatever the cost function and the addresses of the nodes, the
    search of family.cpp terminates within [1 + 10 * 3 ^ 9] iterations of
    the search loop: [solve] returns whenever it is allowed that many
    iterations or more, there being [3 ^ 9] states of eight persons and a
    boat and at most ten transitions at a state. *)
Theorem family_solve_terminates (address_of : nat -> Z)
    (cost : state_t -> cost_t -> cost_t) (fuel : nat) :
  1 + 10 * (3 * 3 ^ 8) <= fuel ->
  exists r, solve address_of cost fuel = Some r.
Proof.
  intros Hfuel. unfold solve, check. simpl.
  apply (@cost_terminates _ _ _ _ address_of (family_space cost) goal
           (fun a => proj2 (state_equal_spec a a) eq_refl) all_states 10).
  - apply in_all_states. repeat split.
  - intros s t Hs Ht _. apply in_all_states in Hs.
    destruct Hs as (Hlen & Hcap & Hcount). apply in_all_states.
    destruct (@transitions_count s t Hlen Hcount Ht) as [Hlen' Hcount'].
    repeat split; auto.
    rewrite (transitions_capacity _ _ Ht). exact Hcap.
  - intros s _. apply transitions_bound.
  - rewrite all_states_length. exact Hfuel.
Qed.


Lemma family_solve_terminates_witness :
  exists r,
    solve ascending noise_cost_older (1 + 10 * (3 * 3 ^ 8)) = Some r.
Proof.
  apply (family_solve_terminates ascending noise_cost_older).
  apply le_n.
Defined.


(** The state space of [solve] is the one that the constructor with cost
    builds from the arguments that [solve] gives it. *)
Lemma family_space_constructed (cost : state_t -> cost_t -> cost_t) :
  family_space cost
  = state_space_with_cost initial_state (mk_cost 0 0) (successors transitions)
      river_crossing_valid cost.
Proof. reflexivity. Qed.
